(** * pm-node: the per-node process manager agent (index.js)

    A shallow embedding of [PMNode] and of its event handlers.

    JavaScript objects are finite maps from property names to values,
    [_.extend] is map union and [delete] is map deletion.  The agent object
    [this], the closures created by [connect] and [spawn] (with the local
    variables they capture) and the listeners they register live in an
    explicit [World], threaded through a small state-and-exception monad.
    Everything the agent does to its environment (debug output, sockets,
    child processes, RPC calls, settling of promises) is appended to a
    trace, oldest action first. *)

From stdpp Require Import base strings gmap list pretty.
From Stdlib Require Import ZArith Lia.

Open Scope Z_scope.

(** ** JavaScript values *)

(** The values that flow through the agent.  Numbers are integers (pids,
    exit codes, ports); [AStrs] is an array of strings ([opts.args]);
    [AHandle] is a reference to a live process object ([process] or a
    [ChildProcess]); [AError] is an [Error] object with its message. *)
Inductive Atom :=
| AUndefined
| ANull
| ABool (b : bool)
| ANum (z : Z)
| AStr (s : string)
| AStrs (l : list string)
| AHandle (h : nat)
| AError (msg : string).

#[global] Instance Atom_eq_dec : EqDecision Atom.
Proof. solve_decision. Defined.

(** Plain objects: [{k: v, ...}]. *)
Abbreviation Obj := (gmap string Atom).

(** [if (v)] *)
Definition truthy (v : Atom) : bool :=
  match v with
  | AUndefined | ANull => false
  | ABool b => b
  | ANum z => negb (z =? 0)
  | AStr s => negb (bool_decide (s = EmptyString))
  | AStrs _ | AHandle _ | AError _ => true
  end.

(** [a === b]: primitives by value, process handles by reference; an array
    or an [Error] is a fresh object wherever the agent meets one, so it is
    never identical to the other operand. *)
Definition strict_eq (a b : Atom) : bool :=
  match a, b with
  | AStrs _, _ | _, AStrs _ | AError _, _ | _, AError _ => false
  | _, _ => bool_decide (a = b)
  end.

(** String conversion, as performed by ['...' + v]. *)
Definition to_str (v : Atom) : string :=
  match v with
  | AUndefined => "undefined"
  | ANull => "null"
  | ABool true => "true"
  | ABool false => "false"
  | ANum z => pretty z
  | AStr s => s
  | AStrs l => String.concat "," l
  | AHandle _ => "[object Object]"
  | AError msg => "Error: " +:+ msg
  end.

(** [o.k], [undefined] when the property is missing. *)
Definition prop (o : Obj) (k : string) : Atom := default AUndefined (o !! k).

(** [err.message] *)
Definition message (err : Atom) : Atom :=
  match err with
  | AError msg => AStr msg
  | _ => AUndefined
  end.

(** [_.extend(dst, src)]: every property of [src] is copied over [dst]. *)
Definition extend (dst src : Obj) : Obj := src ∪ dst.

(** [_.contains(list, v)] *)
Definition contains (l : list Atom) (v : Atom) : bool :=
  existsb (fun x => strict_eq x v) l.

(** ** Private functions *)

(** return a copy of all public properties of a procInfo object *)
Definition toPublicProcInfo (procInfo : Obj) : Obj :=
  let publicInfo := extend ∅ procInfo in
  if truthy (prop publicInfo "_proc")
  then delete "_proc" publicInfo
  else publicInfo.

(** ** Promises *)

(** What a promise can be fulfilled with: a plain value, a record view, or
    ([getProcesses]) an array of record views. *)
Inductive Result :=
| RAtom (a : Atom)
| RObj (o : Obj)
| RObjs (l : list Obj).

Inductive PState :=
| Pending
| Fulfilled (v : Result)
| Rejected (reason : Atom).

(** The promise an operation hands back: [Settled] is a promise that is
    already settled when it is returned ([new Q(v)] is [Settled (Fulfilled
    v)]: Q fulfils with any value that is not a thenable); [OfChild] and
    [OfSocket] are the promises of the deferreds captured by the listeners
    of a child process and of a socket, whose state lives in the world. *)
Inductive Promise :=
| Settled (s : PState)
| OfChild (proc : nat)
| OfSocket (sock : nat).

Definition Q_new (v : Result) : Promise := Settled (Fulfilled v).

(** ** The registry and the world *)

(** A registry entry is a reference to a procInfo object: the address gives
    its identity ([indexOf] compares references), the fields never change
    once the object is built. *)
Record ProcRef := { addr : nat; fields : Obj }.

(** [processes.indexOf(procInfo)]; [None] is [-1]. *)
Fixpoint indexOf (l : list ProcRef) (r : ProcRef) : option nat :=
  match l with
  | [] => None
  | x :: l' => if decide (addr x = addr r) then Some 0%nat
               else S <$> indexOf l' r
  end.

(** [_.findWhere(list, {k: v})]: the first entry whose property is [===]. *)
Fixpoint findWhere (l : list ProcRef) (k : string) (v : Atom) : option ProcRef :=
  match l with
  | [] => None
  | x :: l' => if strict_eq v (prop (fields x) k) then Some x
               else findWhere l' k v
  end.

(** The agent object. A field that is [undefined] or [null] is [None]. *)
Record PMNode := {
  serverHost : Atom;
  serverPort : Atom;
  processes : list ProcRef;
  rawSocket : option nat;
  mux : option nat;
  rpc : option nat;
  pingInterval : option nat
}.

(** The environment of the listeners [spawn] attaches to a child process:
    the local variables of that call which the closures capture. *)
Record Child := {
  c_name : Atom;
  c_procInfo : ProcRef;
  c_promise : Atom;               (* opts.promise *)
  c_masterRpc : option nat;       (* var masterRpc = this.rpc *)
  c_lastProcError : option Atom;  (* var lastProcError = null *)
  c_deferred : PState             (* var deferred = Q.defer() *)
}.

(** The once-listeners [connect] registers on a socket, with the deferred
    they settle; a flag is cleared when its listener has fired. *)
Record Socket := {
  s_deferred : PState;
  s_connect : bool;
  s_error : bool;
  s_close : bool;
  s_reconnect : bool   (* the handlers of _onPingInterval are attached *)
}.

(** A sub-stream a child's output is piped into. *)
Record Stream := {
  st_name : Atom;
  st_proc : nat;
  st_fd : string
}.

(** The outcome of [child_process.spawn]: it throws, or it returns a
    process object whose [pid] is a number (or [undefined]). *)
Inductive Launch :=
| LaunchThrows (err : Atom)
| Launched (pid : Atom).

(** Actions visible outside the agent. *)
Inductive Effect :=
| Debug (msg : string)
| CreateConnection (port host : Atom) (sock : nat)
| SetInterval (ms : Atom) (timer : nat)
| ChildSpawn (command args : Atom)
| RegistryPush (a : nat)
| RegistrySplice (a : nat)
| RpcCall (rpc : nat) (method : string) (payload : Obj) (call : nat)
| CreateStream (mux : nat) (label : Atom) (stream : nat)
| Pipe (proc : nat) (fd : string) (stream : nat)
| Unpipe (proc : nat) (fd : string) (stream : nat)
| Resume (proc : nat) (fd : string)
| ProcKill (proc : Atom) (signal : Atom)
| Settle (s : PState)
| Notify (v : Result).

(** An outbound RPC call with the handlers attached to its promise: the
    heartbeat has a [then] handler that remembers the time it was sent, the
    process-end notification has a [fail] handler. *)
Inductive Call :=
| CallLoop (time : Z)
| CallOnProcessEnd.

Record World := {
  this : PMNode;
  sockets : gmap nat Socket;
  muxes : gmap nat bool;        (* is the mux 'error' once-listener armed *)
  children : gmap nat Child;
  streams : gmap nat Stream;
  calls : gmap nat Call;        (* outbound RPC calls awaiting a reply *)
  ticks : list nat;             (* process.nextTick callbacks of spawn *)
  fresh : nat;                  (* next unused object identity *)
  trace : list Effect
}.

Definition set_this (f : PMNode -> PMNode) (w : World) : World :=
  {| this := f (this w); sockets := sockets w; muxes := muxes w;
     children := children w; streams := streams w; calls := calls w;
     ticks := ticks w; fresh := fresh w; trace := trace w |}.

Definition set_sockets (f : gmap nat Socket -> gmap nat Socket) (w : World) : World :=
  {| this := this w; sockets := f (sockets w); muxes := muxes w;
     children := children w; streams := streams w; calls := calls w;
     ticks := ticks w; fresh := fresh w; trace := trace w |}.

Definition set_muxes (f : gmap nat bool -> gmap nat bool) (w : World) : World :=
  {| this := this w; sockets := sockets w; muxes := f (muxes w);
     children := children w; streams := streams w; calls := calls w;
     ticks := ticks w; fresh := fresh w; trace := trace w |}.

Definition set_children (f : gmap nat Child -> gmap nat Child) (w : World) : World :=
  {| this := this w; sockets := sockets w; muxes := muxes w;
     children := f (children w); streams := streams w; calls := calls w;
     ticks := ticks w; fresh := fresh w; trace := trace w |}.

Definition set_streams (f : gmap nat Stream -> gmap nat Stream) (w : World) : World :=
  {| this := this w; sockets := sockets w; muxes := muxes w;
     children := children w; streams := f (streams w); calls := calls w;
     ticks := ticks w; fresh := fresh w; trace := trace w |}.

Definition set_calls (f : gmap nat Call -> gmap nat Call) (w : World) : World :=
  {| this := this w; sockets := sockets w; muxes := muxes w;
     children := children w; streams := streams w; calls := f (calls w);
     ticks := ticks w; fresh := fresh w; trace := trace w |}.

Definition set_ticks (f : list nat -> list nat) (w : World) : World :=
  {| this := this w; sockets := sockets w; muxes := muxes w;
     children := children w; streams := streams w; calls := calls w;
     ticks := f (ticks w); fresh := fresh w; trace := trace w |}.

Definition set_fresh (f : nat -> nat) (w : World) : World :=
  {| this := this w; sockets := sockets w; muxes := muxes w;
     children := children w; streams := streams w; calls := calls w;
     ticks := ticks w; fresh := f (fresh w); trace := trace w |}.

Definition set_trace (f : list Effect -> list Effect) (w : World) : World :=
  {| this := this w; sockets := sockets w; muxes := muxes w;
     children := children w; streams := streams w; calls := calls w;
     ticks := ticks w; fresh := fresh w; trace := f (trace w) |}.

Definition set_processes (f : list ProcRef -> list ProcRef) (n : PMNode) : PMNode :=
  {| serverHost := serverHost n; serverPort := serverPort n;
     processes := f (processes n); rawSocket := rawSocket n; mux := mux n;
     rpc := rpc n; pingInterval := pingInterval n |}.

Definition set_session (s m r : option nat) (n : PMNode) : PMNode :=
  {| serverHost := serverHost n; serverPort := serverPort n;
     processes := processes n; rawSocket := s; mux := m;
     rpc := r; pingInterval := pingInterval n |}.

Definition set_pingInterval (t : option nat) (n : PMNode) : PMNode :=
  {| serverHost := serverHost n; serverPort := serverPort n;
     processes := processes n; rawSocket := rawSocket n; mux := mux n;
     rpc := rpc n; pingInterval := t |}.

(** ** The monad of handlers: state, and exceptions that keep the state *)

Inductive Outcome (A : Type) :=
| Return (a : A)
| Throw (e : Atom).
Arguments Return {A} a.
Arguments Throw {A} e.

Definition M (A : Type) : Type := World -> Outcome A * World.

Definition ret {A} (a : A) : M A := fun w => (Return a, w).

Definition bind {A B} (m : M A) (k : A -> M B) : M B :=
  fun w => match m w with
           | (Return a, w') => k a w'
           | (Throw e, w') => (Throw e, w')
           end.

Definition throw {A} (e : Atom) : M A := fun w => (Throw e, w).

Declare Scope js_scope.
Delimit Scope js_scope with js.
Notation "'let*' x := m 'in' k" := (bind m (fun x => k))
  (at level 10, x name, m at level 100, k at level 200) : js_scope.
Notation "m ;; k" := (bind m (fun _ => k))
  (at level 100, k at level 200, right associativity) : js_scope.
Open Scope js_scope.

Definition get {A} (f : World -> A) : M A := fun w => (Return (f w), w).
Definition modify (f : World -> World) : M unit := fun w => (Return tt, f w).

Definition emit (e : Effect) : M unit := modify (set_trace (fun t => t ++ [e])).
Definition debug (msg : string) : M unit := emit (Debug msg).

(** A new object: its identity is the next unused one. *)
Definition new_id : M nat :=
  fun w => (Return (fresh w), set_fresh S w).

(** The error raised by [x.f(...)] when [x] is [undefined] or [null]. *)
Definition TypeError : Atom := AError "TypeError: cannot read a property of an absent value".

(** The error raised by [path.basename(p)] when [p] is not a string. *)
Definition PathTypeError : Atom :=
  AError "TypeError: the path argument must be of type string".

(** What the agent calls in Node's standard library, where the answer is
    not decided by the agent: [path.basename] of a string; the exception
    [net.createConnection(port, host)] throws when it refuses its arguments
    (a missing or out-of-range port), [None] when it hands back a socket;
    the exception [proc.kill(signal)] throws (for a signal the platform
    does not know), [None] when the signal is sent. *)
Record Runtime := {
  basename : Atom -> Atom;
  createConnection_error : Atom -> Atom -> option Atom;
  kill_error : Atom -> Atom -> option Atom
}.

Definition isSome {A} (o : option A) : bool :=
  match o with Some _ => true | None => false end.

Definition set_lastProcError (e : option Atom) (c : Child) : Child :=
  {| c_name := c_name c; c_procInfo := c_procInfo c; c_promise := c_promise c;
     c_masterRpc := c_masterRpc c; c_lastProcError := e;
     c_deferred := c_deferred c |}.

Definition set_deferred (s : PState) (c : Child) : Child :=
  {| c_name := c_name c; c_procInfo := c_procInfo c; c_promise := c_promise c;
     c_masterRpc := c_masterRpc c; c_lastProcError := c_lastProcError c;
     c_deferred := s |}.

(** [deferred.resolve(v)] and [deferred.reject(e)] on a deferred held in a
    local variable: only a pending deferred changes state. *)
Definition Q_settle (d : PState) (s : PState) : M PState :=
  match d with
  | Pending => emit (Settle s) ;; ret s
  | _ => ret d
  end.

(** The same on the deferred captured by the listeners of a child. *)
Definition settle_child (proc : nat) (s : PState) : M unit :=
  let* cs := get children in
  match cs !! proc with
  | Some c =>
      let* d := Q_settle (c_deferred c) s in
      modify (set_children (fun cs => <[proc := set_deferred d c]> cs))
  | None => ret tt
  end.

(** ... and on the deferred captured by the listeners of a socket. *)
Definition settle_socket (sock : nat) (s : PState) : M unit :=
  let* ss := get sockets in
  match ss !! sock with
  | Some k =>
      let* d := Q_settle (s_deferred k) s in
      modify (set_sockets (fun ss =>
        <[sock := {| s_deferred := d; s_connect := s_connect k;
                     s_error := s_error k; s_close := s_close k;
                     s_reconnect := s_reconnect k |}]> ss))
  | None => ret tt
  end.

(** [rpc.call(method, payload)]: the call is sent and awaits its reply. *)
Definition rpc_call (r : nat) (method : string) (payload : Obj) (k : Call) : M nat :=
  let* c := new_id in
  emit (RpcCall r method payload c) ;;
  modify (set_calls (fun cs => <[c := k]> cs)) ;;
  ret c.

(** ** The agent *)

Section Agent.

Variable rt : Runtime.

(** [path.basename(p)]: only a string has a base name. *)
Definition path_basename (p : Atom) : M Atom :=
  match p with
  | AStr _ => ret (basename rt p)
  | _ => throw PathTypeError
  end.

(** The global [process] object, and the agent's own registry entry. *)
Definition process_handle : nat := 0.

Definition self_record (pid : Z) : ProcRef :=
  {| addr := 1;
     fields := {[ "name" := AStr "pm-node";
                  "pid" := ANum pid;
                  "_proc" := AHandle process_handle;
                  "protected" := ABool true ]} |}.

(** constructor: [new PMNode(opts)] in a process whose pid is [pid]. *)
Definition PMNode_new (opts : Obj) (pid : Z) : World :=
  {| this := {| serverHost := prop opts "serverHost";
                serverPort := prop opts "serverPort";
                processes := [self_record pid];
                rawSocket := None; mux := None; rpc := None;
                pingInterval := None |};
     sockets := ∅; muxes := ∅; children := ∅; streams := ∅; calls := ∅;
     ticks := []; fresh := 2; trace := [] |}.

(** connect to the pm master server *)
Definition connect (opts0 : Obj) : M Promise :=
  let opts := extend {[ "ping" := ABool true; "pingInterval" := ANum 30000 ]} opts0 in
  let* n := get this in
  if isSome (rpc n) || isSome (rawSocket n) then
    ret (Q_new (RAtom (AError "client is conencted")))
  else
    match createConnection_error rt (serverPort n) (serverHost n) with
    | Some err => throw err
    | None =>
        let* sock := new_id in
        emit (CreateConnection (serverPort n) (serverHost n) sock) ;;
        modify (set_this (set_session (Some sock) (mux n) (rpc n))) ;;
        modify (set_sockets (fun ss =>
          <[sock := {| s_deferred := Pending; s_connect := true; s_error := true;
                       s_close := true; s_reconnect := false |}]> ss)) ;;
        (if negb (isSome (pingInterval n)) && truthy (prop opts "ping") then
           let* t := new_id in
           emit (SetInterval (prop opts "pingInterval") t) ;;
           modify (set_this (set_pingInterval (Some t)))
         else ret tt) ;;
        ret (OfSocket sock)
    end.

(** on server socket connected *)
Definition _onRawSocketConnection : M unit :=
  debug "got raw socket to server" ;;
  let* n := get this in
  if negb (isSome (rawSocket n)) then
    debug "ERROR: _onRawSocketConnection without socket"
  else if isSome (mux n) then
    debug "ERROR: _onRawSocketConnection but mux is not null"
  else if isSome (rpc n) then
    debug "ERROR: _onRawSocketConnection but rpc is not null"
  else
    let* m := new_id in
    modify (set_muxes (fun ms => <[m := true]> ms)) ;;
    let* r := new_id in
    modify (set_this (set_session (rawSocket n) (Some m) (Some r))).

Definition _onRawSocketClose : M unit :=
  debug "lost connection to server" ;;
  modify (set_this (set_session None None None)).

Definition _onMuxError (err : Atom) : M unit :=
  debug ("mux error: " +:+ to_str (message err)) ;;
  modify (set_this (set_session None None None)).

(** The [then]/[fail] handlers [_onPingInterval] attaches to a reconnect. *)
Definition reconnect_log (s : PState) : M unit :=
  match s with
  | Pending => ret tt
  | Fulfilled _ => debug "reconnect successful"
  | Rejected err => debug ("can not reconnect: " +:+ to_str (message err))
  end.

(** on ping interval; [time] is [new Date().getTime()]. *)
Definition _onPingInterval (time : Z) : M unit :=
  let* n := get this in
  match rpc n with
  | Some r =>
      let* _ := rpc_call r "loop" {[ "time" := ANum time ]} (CallLoop time) in
      ret tt
  | None =>
      debug "ping interval has no rpc ... reconnecting now" ;;
      let* p := connect ∅ in
      match p with
      | Settled s => reconnect_log s
      | OfSocket sock =>
          modify (set_sockets (fun ss =>
            alter (fun k => {| s_deferred := s_deferred k; s_connect := s_connect k;
                               s_error := s_error k; s_close := s_close k;
                               s_reconnect := true |}) sock ss))
      | OfChild _ => ret tt
      end
  end.

(** The three once-listeners of a socket. *)
Definition settle_connect (sock : nat) (s : PState) : M unit :=
  let* ss := get sockets in
  match ss !! sock with
  | Some k =>
      settle_socket sock s ;;
      match s_deferred k with
      | Pending => if s_reconnect k then reconnect_log s else ret tt
      | _ => ret tt
      end
  | None => ret tt
  end.

Definition socket_on_connect (sock : nat) : M unit :=
  let* ss := get sockets in
  match ss !! sock with
  | Some k =>
      if s_connect k then
        modify (set_sockets (fun ss =>
          <[sock := {| s_deferred := s_deferred k; s_connect := false;
                       s_error := s_error k; s_close := s_close k;
                       s_reconnect := s_reconnect k |}]> ss)) ;;
        _onRawSocketConnection ;;
        settle_connect sock (Fulfilled (RAtom AUndefined))
      else ret tt
  | None => ret tt
  end.

Definition socket_on_error (sock : nat) (err : Atom) : M unit :=
  let* ss := get sockets in
  match ss !! sock with
  | Some k =>
      if s_error k then
        modify (set_sockets (fun ss =>
          <[sock := {| s_deferred := s_deferred k; s_connect := s_connect k;
                       s_error := false; s_close := s_close k;
                       s_reconnect := s_reconnect k |}]> ss)) ;;
        settle_connect sock (Rejected err)
      else ret tt
  | None => ret tt
  end.

Definition socket_on_close (sock : nat) : M unit :=
  let* ss := get sockets in
  match ss !! sock with
  | Some k =>
      if s_close k then
        modify (set_sockets (fun ss =>
          <[sock := {| s_deferred := s_deferred k; s_connect := s_connect k;
                       s_error := s_error k; s_close := false;
                       s_reconnect := s_reconnect k |}]> ss)) ;;
        _onRawSocketClose
      else ret tt
  | None => ret tt
  end.

(** The once-listener of a multiplexer. *)
Definition mux_on_error (m : nat) (err : Atom) : M unit :=
  let* ms := get muxes in
  match ms !! m with
  | Some true =>
      modify (set_muxes (fun ms => <[m := false]> ms)) ;;
      _onMuxError err
  | _ => ret tt
  end.

(** The handlers on the promise of an outbound call. *)
Definition call_on_reply (c : nat) (data : Obj) (rTime : Z) : M unit :=
  let* cs := get calls in
  modify (set_calls (fun cs => delete c cs)) ;;
  match cs !! c with
  | Some (CallLoop time) =>
      (if negb (strict_eq (prop data "time") (ANum time))
       then debug "ERROR: loop time does not match" else ret tt) ;;
      let latency := rTime - time in
      if 500 <? latency then
        debug ("got loop response with high latency " +:+ pretty latency +:+ "ms")
      else ret tt
  | _ => ret tt
  end.

Definition call_on_failure (c : nat) (err : Atom) : M unit :=
  let* cs := get calls in
  modify (set_calls (fun cs => delete c cs)) ;;
  match cs !! c with
  | Some CallOnProcessEnd =>
      debug ("onProcessEnd call error: " +:+ to_str (message err))
  | _ => ret tt
  end.

(** *** Start of public methods. *)

(** [facts] is what the [os] module reports. *)
Definition getInfo (facts : Obj) : M Promise :=
  debug "getInfo" ;;
  ret (Q_new (RObj facts)).

(** The answer of [usage.lookup] for one pid. *)
Inductive Usage :=
| UsageErr (err : Atom)
| UsageOk (result : Obj).

(** [Q.all]: the array of the values, or the first rejection. *)
Fixpoint Q_all (l : list (Atom + Obj)) : PState :=
  match l with
  | [] => Fulfilled (RObjs [])
  | inl err :: _ => Rejected err
  | inr o :: l' =>
      match Q_all l' with
      | Fulfilled (RObjs os) => Fulfilled (RObjs (o :: os))
      | s => s
      end
  end.

Definition getProcesses_entry (lookup : Atom -> Usage) (info : ProcRef) : Atom + Obj :=
  match lookup (prop (fields info) "pid") with
  | UsageErr err => inl err
  | UsageOk result => inr (extend (extend ∅ (toPublicProcInfo (fields info))) result)
  end.

Definition getProcesses (lookup : Atom -> Usage) : M Promise :=
  debug "getProcesses" ;;
  let* n := get this in
  ret (Settled (Q_all (map (getProcesses_entry lookup) (processes n)))).

(** [proc.on('error', ...)] *)
Definition proc_on_error (proc : nat) (err : Atom) : M unit :=
  let* cs := get children in
  match cs !! proc with
  | Some c =>
      debug (to_str (c_name c) +:+ " process error: " +:+ to_str (message err)) ;;
      (* store the error that we can send it to the master in the close handler. *)
      modify (set_children (fun cs => <[proc := set_lastProcError (Some err) c]> cs))
  | None => ret tt
  end.

(** [proc.on('close', ...)] *)
Definition proc_on_close (proc : nat) (code : Atom) : M unit :=
  let* cs := get children in
  match cs !! proc with
  | Some c =>
      let name := c_name c in
      let procInfo := c_procInfo c in
      debug (to_str name +:+ " process close") ;;
      let* n := get this in
      match indexOf (processes n) procInfo with
      | Some index =>
          emit (RegistrySplice (addr procInfo)) ;;
          modify (set_this (set_processes (fun ps => delete index ps)))
      | None => debug "procInfo not found"
      end ;;
      (* add the exit code to the info. *)
      let procFinInfo := extend {[ "code" := code ]} (fields procInfo) in
      (* if we got an error add it to the info *)
      let procFinInfo :=
        match c_lastProcError c with
        | Some err => <["error" := err]> procFinInfo
        | None => procFinInfo
        end in
      match c_masterRpc c with
      | Some masterRpc =>
          let* _ := rpc_call masterRpc "onProcessEnd"
                      (toPublicProcInfo procFinInfo) CallOnProcessEnd in
          ret tt
      | None =>
          debug "can not send process end msg to master, disconnected?"
      end ;;
      if strict_eq (c_promise c) (AStr "execution") then
        match c_lastProcError c with
        | Some lastProcError =>
            debug (to_str name +:+ " process exited with error: " +:+
                   to_str (message lastProcError)) ;;
            settle_child proc (Rejected lastProcError)
        | None =>
            if negb (strict_eq code (ANum 0)) then
              debug (to_str name +:+ " process exited with code: " +:+ to_str code) ;;
              settle_child proc (Rejected (AError
                (to_str name +:+ " process exited with code: " +:+ to_str code)))
            else
              settle_child proc (Fulfilled (RObj (toPublicProcInfo procFinInfo)))
        end
      else ret tt
  | None => ret tt
  end.

(** The callback [spawn] passes to [process.nextTick]. *)
Definition proc_on_tick (proc : nat) : M unit :=
  let* cs := get children in
  match cs !! proc with
  | Some c =>
      match c_lastProcError c with
      | Some lastProcError =>
          debug ("do NOT notify master of creation of " +:+ to_str (c_name c) +:+
                 " because error happend during cration: " +:+
                 to_str (message lastProcError))
      | None =>
          debug ("notify master of creation of " +:+ to_str (c_name c)) ;;
          match c_deferred c with
          | Pending => emit (Notify (RObj (toPublicProcInfo (fields (c_procInfo c)))))
          | _ => ret tt
          end
      end
  | None => ret tt
  end.

(** [stream.on('error', ...)] of a piped sub-stream. *)
Definition stream_on_error (s : nat) (err : Atom) : M unit :=
  let* ss := get streams in
  match ss !! s with
  | Some k =>
      debug (to_str (st_name k) +:+ " " +:+ st_fd k +:+ " pipe error: " +:+
             to_str (message err)) ;;
      emit (Unpipe (st_proc k) (st_fd k) s) ;;
      emit (Resume (st_proc k) (st_fd k))
  | None => ret tt
  end.

(** The block [if (opts.stdout) { ... }] of [spawn], which is repeated for
    [opts.stderr]: [fd] is ["stdout"] or ["stderr"], [label] the option. *)
Definition pipe_std (name : Atom) (proc : nat) (fd : string) (label : Atom) : M unit :=
  if truthy label then
    debug ("piping " +:+ fd +:+ " of " +:+ to_str name +:+ " to " +:+ to_str label) ;;
    let* n := get this in
    match mux n with
    | Some m =>
        let* s := new_id in
        emit (CreateStream m label s) ;;
        emit (Pipe proc fd s) ;;
        modify (set_streams (fun ss =>
          <[s := {| st_name := name; st_proc := proc; st_fd := fd |}]> ss))
    | None => throw TypeError
    end
  else ret tt.

(** [launch] is what [child_process.spawn] does for this call. *)
Definition spawn (opts0 : Obj) (launch : Launch) : M Promise :=
  let opts := extend {[ "args" := AStrs []; "promise" := AStr "creation" ]} opts0 in
  if negb (truthy (prop opts "command")) then
    debug "illigal spawn call: command missing!" ;;
    ret (Q_new (RAtom (AError "command is required")))
  (* validate the promise options. *)
  else if negb (contains [AStr "creation"; AStr "execution"] (prop opts "promise")) then
    debug ("illigal spawn call: promise type " +:+
           to_str (prop opts "promise") +:+ " is not supported") ;;
    ret (Q_new (RAtom (AError
      ("promise type " +:+ to_str (prop opts "promise") +:+ " is not supported"))))
  else
    let* name := if truthy (prop opts "name") then ret (prop opts "name")
                 else path_basename (prop opts "command") in
    debug ("starting " +:+ to_str name +:+ " process") ;;
    emit (ChildSpawn (prop opts "command") (prop opts "args")) ;;
    match launch with
    | LaunchThrows err =>
        debug (to_str name +:+ " process spwan error: " +:+ to_str (message err)) ;;
        ret (Q_new (RAtom err))
    | Launched pid =>
        let* proc := new_id in
        let* a := new_id in
        let procInfo :=
          {| addr := a;
             fields := {[ "_proc" := AHandle proc; (* private *)
                          "coreId" := prop opts "coreId"; (* only for server *)
                          "name" := name;
                          "pid" := pid;
                          "promise" := prop opts "promise" ]} |} in
        emit (RegistryPush a) ;;
        modify (set_this (set_processes (fun ps => ps ++ [procInfo]))) ;;
        (* start of async handling *)
        let* n := get this in
        modify (set_children (fun cs =>
          <[proc := {| c_name := name; c_procInfo := procInfo;
                       c_promise := prop opts "promise";
                       c_masterRpc := rpc n;
                       c_lastProcError := None;
                       c_deferred := Pending |}]> cs)) ;;
        (* if only the creation should be promised resolve now. *)
        (if strict_eq (prop opts "promise") (AStr "creation") then
           settle_child proc (Fulfilled (RObj (toPublicProcInfo (fields procInfo))))
         else
           (* if the execution is promised the std streams can be send. *)
           pipe_std name proc "stdout" (prop opts "stdout") ;;
           pipe_std name proc "stderr" (prop opts "stderr") ;;
           (* send a notification to inform the server the process hast started. *)
           modify (set_ticks (fun ts => ts ++ [proc]))) ;;
        ret (OfChild proc)
    end.

Definition kill (opts0 : Obj) : M Promise :=
  let deferred := Pending in
  let opts := extend {[ "signal" := AStr "SIGTERM" ]} opts0 in
  let* n := get this in
  let* deferred :=
    if negb (truthy (prop opts "pid")) then
      debug "illigal kill call: pid missing!" ;;
      Q_settle deferred (Rejected (AError "pid is required"))
    else
      match findWhere (processes n) "pid" (prop opts "pid") with
      | None =>
          debug "illigal kill call: pid not found" ;;
          Q_settle deferred (Rejected (AError "pid not found"))
      | Some procInfo =>
          if truthy (prop (fields procInfo) "protected") then
            debug "illigal kill call: process is protected" ;;
            Q_settle deferred (Rejected (AError "process is protected"))
          else if negb (truthy (prop (fields procInfo) "_proc")) then
            debug "illigal kill call: invalid procInfo object" ;;
            Q_settle deferred (Rejected (AError
              "invalid procInfo object (pm-node internal error)"))
          else
            match kill_error rt (prop (fields procInfo) "_proc") (prop opts "signal") with
            | Some err => throw err
            | None =>
                emit (ProcKill (prop (fields procInfo) "_proc") (prop opts "signal")) ;;
                Q_settle deferred (Fulfilled (RObj (toPublicProcInfo (fields procInfo))))
            end
      end in
  ret (Settled deferred).

(** ** The agent as a state machine *)

(** What can happen to the agent: a call of one of its methods (by the
    command line, or by the master through the RPC method table), or an
    event delivered to one of the listeners it registered. *)
Inductive Event :=
| EvConnect (opts : Obj)
| EvGetInfo (facts : Obj)
| EvGetProcesses (lookup : Atom -> Usage)
| EvSpawn (opts : Obj) (launch : Launch)
| EvKill (opts : Obj)
| EvSocketConnect (sock : nat)
| EvSocketError (sock : nat) (msg : string)
| EvSocketClose (sock : nat)
| EvMuxError (m : nat) (msg : string)
| EvPingInterval (time : Z)
| EvCallReply (call : nat) (data : Obj) (rTime : Z)
| EvCallFailure (call : nat) (msg : string)
| EvProcError (proc : nat) (msg : string)
| EvProcClose (proc : nat) (code : Atom)
| EvNextTick (proc : nat)
| EvStreamError (stream : nat) (msg : string).

Definition ignore {A} (m : M A) : M unit := let* _ := m in ret tt.

Definition handle (e : Event) : M unit :=
  match e with
  | EvConnect opts => ignore (connect opts)
  | EvGetInfo facts => ignore (getInfo facts)
  | EvGetProcesses lookup => ignore (getProcesses lookup)
  | EvSpawn opts launch => ignore (spawn opts launch)
  | EvKill opts => ignore (kill opts)
  | EvSocketConnect sock => socket_on_connect sock
  | EvSocketError sock msg => socket_on_error sock (AError msg)
  | EvSocketClose sock => socket_on_close sock
  | EvMuxError m msg => mux_on_error m (AError msg)
  | EvPingInterval time => _onPingInterval time
  | EvCallReply c data rTime => call_on_reply c data rTime
  | EvCallFailure c msg => call_on_failure c (AError msg)
  | EvProcError proc msg => proc_on_error proc (AError msg)
  | EvProcClose proc code => proc_on_close proc code
  | EvNextTick proc =>
      let* ts := get ticks in
      if bool_decide (proc ∈ ts) then
        modify (set_ticks (fun ts => filter (fun p => p ≠ proc) ts)) ;;
        proc_on_tick proc
      else ret tt
  | EvStreamError s msg => stream_on_error s (AError msg)
  end.

(** One turn of the event loop; an exception that escapes a handler leaves
    the state as it was when it was thrown. *)
Definition step (w : World) (e : Event) : World := snd (handle e w).

Definition run (w : World) (es : list Event) : World := foldl step w es.

(** The states the agent can be in: those reached from a fresh agent. *)
Inductive reachable (opts : Obj) (pid : Z) : World -> Prop :=
| reachable_new : reachable opts pid (PMNode_new opts pid)
| reachable_step w e : reachable opts pid w -> reachable opts pid (step w e).

(** The options of [spawn] once the defaults are filled in. *)
Definition spawn_opts (opts : Obj) : Obj :=
  extend {[ "args" := AStrs []; "promise" := AStr "creation" ]} opts.

(** [opts.name || path.basename(opts.command)] has a value: the name is
    given, or the command is a string. *)
Definition spawn_named (opts : Obj) : bool :=
  truthy (prop (spawn_opts opts) "name") ||
  match prop (spawn_opts opts) "command" with AStr _ => true | _ => false end.

(** The record [spawn] builds for a child: [proc] is the identity of the
    process object, the record itself is the next object. *)
Definition spawn_name (opts : Obj) : Atom :=
  if truthy (prop (spawn_opts opts) "name") then prop (spawn_opts opts) "name"
  else basename rt (prop (spawn_opts opts) "command").

Definition spawn_procInfo (opts : Obj) (pid : Atom) (proc : nat) : ProcRef :=
  {| addr := S proc;
     fields := {[ "_proc" := AHandle proc;
                  "coreId" := prop (spawn_opts opts) "coreId";
                  "name" := spawn_name opts;
                  "pid" := pid;
                  "promise" := prop (spawn_opts opts) "promise" ]} |}.

End Agent.

(** ** Notions used to state the properties *)

(** A handler that leaves the registry and the child listeners alone. *)
Definition same_registry (w w' : World) : Prop :=
  processes (this w') = processes (this w) /\
  children w' = children w /\
  (fresh w <= fresh w')%nat.

(** The completion payload the close listener builds. *)
Definition procFinInfo (c : Child) (code : Atom) : Obj :=
  let info := extend {[ "code" := code ]} (fields (c_procInfo c)) in
  match c_lastProcError c with
  | Some err => <["error" := err]> info
  | None => info
  end.

(** How the close listener settles an execution promise. *)
Definition close_settlement (c : Child) (code : Atom) : PState :=
  match c_lastProcError c with
  | Some err => Rejected err
  | None =>
      if negb (strict_eq code (ANum 0))
      then Rejected (AError (to_str (c_name c) +:+ " process exited with code: " +:+
                             to_str code))
      else Fulfilled (RObj (toPublicProcInfo (procFinInfo c code)))
  end.

(** The state of the child's deferred after the close listener. *)
Definition close_deferred (c : Child) (code : Atom) : PState :=
  if strict_eq (c_promise c) (AStr "execution") then
    match c_deferred c with
    | Pending => close_settlement c code
    | d => d
    end
  else c_deferred c.

(** The first two things the close listener does after its debug line:
    the removal from the registry, then the notification of the master. *)
Definition close_removal (w : World) (c : Child) : Effect :=
  match indexOf (processes (this w)) (c_procInfo c) with
  | Some _ => RegistrySplice (addr (c_procInfo c))
  | None => Debug "procInfo not found"
  end.

Definition close_notification (w : World) (c : Child) (code : Atom) : Effect :=
  match c_masterRpc c with
  | Some masterRpc =>
      RpcCall masterRpc "onProcessEnd" (toPublicProcInfo (procFinInfo c code)) (fresh w)
  | None => Debug "can not send process end msg to master, disconnected?"
  end.

Definition is_RpcCall (e : Effect) : bool :=
  match e with RpcCall _ _ _ _ => true | _ => false end.

(** The close event of the process [proc]. *)
Definition is_close (proc : nat) (e : Event) : bool :=
  match e with
  | EvProcClose p _ => bool_decide (p = proc)
  | _ => false
  end.

Definition no_close (proc : nat) (es : list Event) : bool :=
  forallb (fun e => negb (is_close proc e)) es.

(** The error of [proc] observed last among the events [es], if any. *)
Definition observe_error (proc : nat) (acc : option Atom) (e : Event) : option Atom :=
  match e with
  | EvProcError p msg => if decide (p = proc) then Some (AError msg) else acc
  | _ => acc
  end.

Definition last_error (proc : nat) (es : list Event) : option Atom :=
  foldl (observe_error proc) None es.

(** The deferred of the promise [OfChild proc]. *)
Definition deferred_of (w : World) (proc : nat) : option PState :=
  c_deferred <$> children w !! proc.

(** The addresses of the records in the registry. *)
Definition registry (w : World) : list nat := addr <$> processes (this w).

(** The payload of [onProcessEnd] for a record with fields [info]: the exit
    code and, if one was captured, the error are added, [_proc] is removed. *)
Definition end_payload (info : Obj) (code : Atom) (err : option Atom) : Obj :=
  toPublicProcInfo
    match err with
    | Some e => <["error" := e]> (extend {[ "code" := code ]} info)
    | None => extend {[ "code" := code ]} info
    end.

(** *** Concrete inputs for the examples *)

(** An instance of [path.basename]: the part after the last slash. *)
Fixpoint last_component (s cur : string) : string :=
  match s with
  | EmptyString => cur
  | String c s' =>
      if bool_decide (String c EmptyString = "/") then last_component s' EmptyString
      else last_component s' (cur +:+ String c EmptyString)
  end.

Definition example_basename (v : Atom) : Atom :=
  AStr (last_component (to_str v) EmptyString).

(** An instance of Node's standard library: ports are the numbers below
    65536, and four signals are known. *)
Definition example_runtime : Runtime :=
  {| basename := example_basename;
     createConnection_error := fun port host =>
       match port with
       | ANum p => if (0 <=? p) && (p <? 65536) then None
                   else Some (AError "RangeError: port should be >= 0 and < 65536")
       | _ => Some (AError "TypeError: the port argument must be specified")
       end;
     kill_error := fun proc signal =>
       if bool_decide (signal ∈ [AStr "SIGTERM"; AStr "SIGKILL"; AStr "SIGINT"; AStr "SIGHUP"])
       then None
       else Some (AError ("TypeError: Unknown signal: " +:+ to_str signal)) |}.

Definition example_server : Obj :=
  {[ "serverHost" := AStr "master.example"; "serverPort" := ANum 7000 ]}.

(** A fresh agent in the process 4711. *)
Definition example_agent : World := PMNode_new example_server 4711.

Definition example_creation : Obj := {[ "command" := AStr "/bin/sleep" ]}.

Definition example_execution : Obj :=
  {[ "command" := AStr "/bin/true"; "promise" := AStr "execution" ]}.

(** The agent after it has launched [/bin/sleep] as process 4712. *)
Definition example_supervising : World :=
  step example_runtime example_agent
       (EvSpawn example_creation (Launched (ANum 4712))).

(** The objects an action hands to the outside: the payload of an RPC
    call, the value a promise is fulfilled with or notifies. *)
Definition result_objects (v : Result) : list Obj :=
  match v with
  | RAtom _ => []
  | RObj o => [o]
  | RObjs l => l
  end.

Definition effect_objects (e : Effect) : list Obj :=
  match e with
  | RpcCall _ _ payload _ => [payload]
  | Settle (Fulfilled v) => result_objects v
  | Notify v => result_objects v
  | _ => []
  end.

(** An object without a [_proc] property. *)
Definition no_proc (o : Obj) : Prop := o !! "_proc" = None.

Definition effect_ok (e : Effect) : Prop := Forall no_proc (effect_objects e).

(** [w'] extends the trace of [w] by actions that hand out no [_proc]. *)
Definition trace_ext (w w' : World) : Prop :=
  exists t, trace w' = trace w ++ t /\ Forall effect_ok t.

(** [procInfo.protected] as a condition. *)
Definition protected (r : ProcRef) : bool := truthy (prop (fields r) "protected").

(** The record of the child whose process object is [p]. *)
Definition child_record (p : nat) (r : ProcRef) : Prop :=
  (2 <= p)%nat /\ addr r = S p /\
  fields r !! "protected" = None /\
  fields r !! "_proc" = Some (AHandle p).

Record Inv (pid : Z) (w : World) : Prop := {
  inv_self : exists rest,
    processes (this w) = self_record pid :: rest /\
    Forall (fun r => exists p, child_record p r) rest;
  inv_nodup : NoDup (addr <$> processes (this w));
  inv_fresh : Forall (fun r => (addr r < fresh w)%nat) (processes (this w));
  inv_children : forall p c,
    children w !! p = Some c ->
    (S p < fresh w)%nat /\ child_record p (c_procInfo c)
}.


(** ** Notions used to state the further properties *)

(** The three fields of a session go together: a multiplexer exactly when
    an RPC channel, and both only on a socket. *)
Definition session_consistent (n : PMNode) : Prop :=
  (is_Some (mux n) <-> is_Some (rpc n)) /\
  (is_Some (rpc n) -> is_Some (rawSocket n)).

Definition is_SetInterval (e : Effect) : bool :=
  match e with SetInterval _ _ => true | _ => false end.

Definition is_CreateConnection (e : Effect) : bool :=
  match e with CreateConnection _ _ _ => true | _ => false end.

Definition is_ProcKill (e : Effect) : bool :=
  match e with ProcKill _ _ => true | _ => false end.

(** An action that opens no socket, sets no timer and sends no signal. *)
Definition quiet_effect (e : Effect) : bool :=
  negb (is_SetInterval e || is_CreateConnection e || is_ProcKill e).

(** The handler adds only quiet actions and keeps the timer field. *)
Definition quiet (w w' : World) : Prop :=
  pingInterval (this w') = pingInterval (this w) /\
  exists t, trace w' = trace w ++ t /\ forallb quiet_effect t = true.

(** The handler keeps the session fields. *)
Definition same_session (w w' : World) : Prop :=
  rawSocket (this w') = rawSocket (this w) /\
  mux (this w') = mux (this w) /\
  rpc (this w') = rpc (this w).

(** The pid a registry record carries. *)
Definition pid_of (r : ProcRef) : Atom := prop (fields r) "pid".

(** No record of the list has the pid [p]. *)
Definition pid_free (p : Atom) (l : list ProcRef) : Prop :=
  Forall (fun r => strict_eq p (pid_of r) = false) l.

(** What [getProcesses] answers for one record when its lookup succeeds. *)
Definition usage_view (r : ProcRef) (result : Obj) : Obj :=
  extend (extend ∅ (toPublicProcInfo (fields r))) result.

(** [session_consistent] as a test. *)
Definition session_okb (n : PMNode) : bool :=
  match mux n, rpc n, rawSocket n with
  | None, None, _ => true
  | Some _, Some _, Some _ => true
  | _, _, _ => false
  end.

(** The number of timers set so far. *)
Definition timers (t : list Effect) : nat := length (List.filter is_SetInterval t).


(** The timer field tells whether the one timer has been set. *)
Definition timer_inv (w : World) : Prop :=
  timers (trace w) = if isSome (pingInterval (this w)) then 1%nat else 0%nat.


(** Every record of the registry is the agent's own or the record of a
    child whose listeners are registered. *)
Definition registry_owned (pid : Z) (w : World) : Prop :=
  forall r, r ∈ processes (this w) ->
    r = self_record pid \/
    exists p c, children w !! p = Some c /\ c_procInfo c = r.

(** The handler keeps the queue of [process.nextTick] callbacks. *)
Definition same_ticks (w w' : World) : Prop := ticks w' = ticks w.

(** The tick of the process [proc]. *)
Definition is_tick (proc : nat) (e : Event) : bool :=
  match e with
  | EvNextTick p => bool_decide (p = proc)
  | _ => false
  end.

Definition no_tick (proc : nat) (es : list Event) : bool :=
  forallb (fun e => negb (is_tick proc e)) es.

(** The lines the handler of a ['loop'] reply logs. *)
Definition reply_log (data : Obj) (time rTime : Z) : list Effect :=
  (if strict_eq (prop data "time") (ANum time) then []
   else [Debug "ERROR: loop time does not match"]) ++
  (if 500 <? rTime - time
   then [Debug ("got loop response with high latency " +:+ pretty (rTime - time) +:+ "ms")]
   else []).

(** ** The command line: bin/pm-node *)

(** What [minimist] hands to the script: the four flags and [argv._]. *)
Record Argv := {
  argv_help : bool;
  argv_quiet : bool;
  argv_version : bool;
  argv_verbose : bool;
  argv_positional : list Atom
}.

(** How the script ends: it prints and exits, or it dies of the exception
    that escaped [connect], or it leaves an agent running, with the promise
    of its [connect]. *)
Inductive Cli :=
| CliExit (out : list string) (code : Z)
| CliUncaught (e : Atom)
| CliRunning (node : World) (connecting : Promise).

Section CommandLine.

(** Node's standard library, the global [parseInt], the version of
    [package.json] and the text of the usage comment. *)
Variable rt : Runtime.
Variable parseInt : Atom -> Atom.
Variable package_version : string.
Variable usage_text : string.

Definition qlog (argv : Argv) (msg : string) : list string :=
  if argv_quiet argv then [] else [msg].

(** The script, run in the process [pid]. *)
Definition pm_node (argv : Argv) (pid : Z) : Cli :=
  if argv_version argv then CliExit [package_version] 0
  else if argv_help argv || negb (length (argv_positional argv) =? 2)%nat then
    CliExit [usage_text] 0
  else
    let node := PMNode_new
      {[ "serverHost" := nth 0 (argv_positional argv) AUndefined;
         "serverPort" := parseInt (nth 1 (argv_positional argv) AUndefined) ]} pid in
    match connect rt ∅ node with
    | (Return p, w) => CliRunning w p
    | (Throw e, _) => CliUncaught e
    end.

(** The [then] and [fail] handlers on the promise of that [connect]. *)
Definition pm_node_settled (argv : Argv) (s : PState) : list string :=
  match s with
  | Pending => []
  | Fulfilled _ => qlog argv "connected to server"
  | Rejected err => qlog argv ("failed to connected to server: " +:+ to_str (message err))
  end.

End CommandLine.

(** *** Further concrete inputs for the examples *)

(** The fresh agent once it is connected to the master. *)
Definition example_connected : World :=
  run example_runtime example_agent [EvConnect ∅; EvSocketConnect 2].

(** A usage lookup that always succeeds. *)
Definition example_lookup (pid : Atom) : Usage :=
  UsageOk {[ "cpu" := ANum 3; "memory" := ANum 4096 ]}.

(** A usage lookup that does not see the process 4712. *)
Definition example_lookup_failing (pid : Atom) : Usage :=
  if strict_eq pid (ANum 4712) then UsageErr (AError "no such process")
  else UsageOk {[ "cpu" := ANum 3; "memory" := ANum 4096 ]}.

Definition example_argv : Argv :=
  {| argv_help := false; argv_quiet := false; argv_version := false;
     argv_verbose := false;
     argv_positional := [AStr "master.example"; ANum 7000] |}.

(** An instance of [parseInt] on the arguments used here; [minimist] hands
    a numeric argument over as a number. *)
Definition example_parseInt (v : Atom) : Atom :=
  match v with
  | AStr "7000" => ANum 7000
  | ANum z => ANum z
  | _ => AUndefined
  end.

(** * Properties *)

(** ** Tactics and basic facts *)

Ltac unfold_monad :=
  unfold ignore, settle_child, settle_socket, rpc_call, Q_settle, Q_new,
    new_id, debug, emit, modify, get, throw, bind, ret in *.

Lemma truthy_handle h : truthy (AHandle h) = true.
Proof. reflexivity. Qed.

Lemma isSome_true {A} (o : option A) : isSome o = true <-> is_Some o.
Proof.
  destruct o; simpl; split; intros H; eauto; try done.
Qed.

Lemma prop_extend_l dst src k v :
  src !! k = Some v -> prop (extend dst src) k = v.
Proof.
  intros H. unfold prop, extend.
  by rewrite (lookup_union_Some_l _ _ _ _ H).
Qed.

Lemma prop_extend_r dst src k :
  src !! k = None -> prop (extend dst src) k = prop dst k.
Proof.
  intros H. unfold prop, extend.
  by rewrite lookup_union_r.
Qed.

(** The public view has no truthy [_proc]; when the record holds its handle
    there, the public view has no [_proc] property at all. *)
Lemma toPublicProcInfo_proc o : truthy (prop (toPublicProcInfo o) "_proc") = false.
Proof.
  unfold toPublicProcInfo.
  destruct (truthy (prop (extend ∅ o) "_proc")) eqn:E; [|exact E].
  unfold prop. by rewrite lookup_delete_eq.
Qed.

Lemma toPublicProcInfo_handle o h :
  o !! "_proc" = Some (AHandle h) -> toPublicProcInfo o !! "_proc" = None.
Proof.
  intros H. unfold toPublicProcInfo.
  rewrite (prop_extend_l ∅ o _ _ H). simpl. apply lookup_delete_eq.
Qed.

Lemma toPublicProcInfo_other o k :
  k ≠ "_proc" -> toPublicProcInfo o !! k = o !! k.
Proof.
  intros Hk. unfold toPublicProcInfo, extend.
  rewrite (right_id_L ∅ (∪)).
  destruct (truthy _); [|done].
  by rewrite lookup_delete_ne.
Qed.

Lemma prop_extend dst src k :
  prop (extend dst src) k =
  match src !! k with Some v => v | None => prop dst k end.
Proof.
  destruct (src !! k) eqn:E.
  - by apply prop_extend_l.
  - by apply prop_extend_r.
Qed.

Lemma strict_eq_ne a b : a ≠ b -> strict_eq a b = false.
Proof.
  intros H. unfold strict_eq.
  destruct a, b; try reflexivity; by apply bool_decide_eq_false.
Qed.

Lemma strict_eq_num z : strict_eq (ANum z) (ANum z) = true.
Proof. unfold strict_eq. by apply bool_decide_eq_true. Qed.

Lemma strict_eq_str s : strict_eq (AStr s) (AStr s) = true.
Proof. unfold strict_eq. by apply bool_decide_eq_true. Qed.

Lemma strict_eq_true a b : strict_eq a b = true -> a = b.
Proof.
  unfold strict_eq.
  destruct a, b; try discriminate; intros H; by apply bool_decide_eq_true in H.
Qed.

#[global] Arguments strict_eq : simpl never.

Lemma contains_modes v :
  contains [AStr "creation"; AStr "execution"] v = true <->
  v = AStr "creation" \/ v = AStr "execution".
Proof.
  unfold contains. simpl. rewrite !orb_true_iff. split.
  - intros [H | [H | H]]; try discriminate; apply strict_eq_true in H; auto.
  - intros [-> | ->]; rewrite strict_eq_str; auto.
Qed.

Lemma contains_modes_false v :
  v ≠ AStr "creation" -> v ≠ AStr "execution" ->
  contains [AStr "creation"; AStr "execution"] v = false.
Proof.
  intros H1 H2. apply not_true_is_false. rewrite contains_modes. tauto.
Qed.

#[global] Arguments contains : simpl never.

Lemma spawn_opts_other opts k :
  k ≠ "args" -> k ≠ "promise" -> prop (spawn_opts opts) k = prop opts k.
Proof.
  intros H1 H2. unfold spawn_opts. rewrite prop_extend.
  unfold prop. destruct (opts !! k); [done|].
  by rewrite lookup_insert_ne, lookup_singleton_ne.
Qed.

Lemma spawn_opts_promise opts :
  prop (spawn_opts opts) "promise" = default (AStr "creation") (opts !! "promise").
Proof.
  unfold spawn_opts. rewrite prop_extend.
  by destruct (opts !! "promise").
Qed.

Section Properties.

Variable rt : Runtime.

(** ** Handlers that leave the registry and the child listeners alone *)

Ltac handler_cases :=
  unfold_monad; simpl;
  repeat (case_match; simplify_eq/=; try done).

Ltac solve_same_registry :=
  intros; unfold same_registry; handler_cases;
  repeat split; simpl; try done; try lia.

Lemma same_registry_refl w : same_registry w w.
Proof. by repeat split. Qed.

Lemma connect_same opts w : same_registry w (snd (connect rt opts w)).
Proof. unfold connect. solve_same_registry. Qed.

Lemma getInfo_same facts w : same_registry w (snd (getInfo facts w)).
Proof. unfold getInfo. solve_same_registry. Qed.

Lemma getProcesses_same lookup w : same_registry w (snd (getProcesses lookup w)).
Proof. unfold getProcesses. solve_same_registry. Qed.

Lemma kill_same opts w : same_registry w (snd (kill rt opts w)).
Proof. unfold kill. solve_same_registry. Qed.

Lemma socket_on_connect_same sock w : same_registry w (snd (socket_on_connect sock w)).
Proof.
  unfold socket_on_connect, settle_connect, _onRawSocketConnection, reconnect_log.
  solve_same_registry.
Qed.

Lemma socket_on_error_same sock err w : same_registry w (snd (socket_on_error sock err w)).
Proof.
  unfold socket_on_error, settle_connect, reconnect_log.
  solve_same_registry.
Qed.

Lemma socket_on_close_same sock w : same_registry w (snd (socket_on_close sock w)).
Proof. unfold socket_on_close, _onRawSocketClose. solve_same_registry. Qed.

Lemma mux_on_error_same m err w : same_registry w (snd (mux_on_error m err w)).
Proof. unfold mux_on_error, _onMuxError. solve_same_registry. Qed.

Lemma _onPingInterval_same time w : same_registry w (snd (_onPingInterval rt time w)).
Proof.
  unfold _onPingInterval, connect, reconnect_log.
  solve_same_registry.
Qed.

Lemma call_on_reply_same c data rTime w : same_registry w (snd (call_on_reply c data rTime w)).
Proof. unfold call_on_reply. solve_same_registry. Qed.

Lemma call_on_failure_same c err w : same_registry w (snd (call_on_failure c err w)).
Proof. unfold call_on_failure. solve_same_registry. Qed.

Lemma stream_on_error_same s err w : same_registry w (snd (stream_on_error s err w)).
Proof. unfold stream_on_error. solve_same_registry. Qed.

Lemma proc_on_tick_same proc w : same_registry w (snd (proc_on_tick proc w)).
Proof. unfold proc_on_tick. solve_same_registry. Qed.

(** ** The listeners of a child process *)

Lemma set_deferred_id c : set_deferred (c_deferred c) c = c.
Proof. by destruct c. Qed.

(** The error listener only stores the error. *)
Lemma proc_on_error_spec proc err w c :
  children w !! proc = Some c ->
  proc_on_error proc err w =
    (Return tt,
     set_children (fun cs => <[proc := set_lastProcError (Some err) c]> cs)
       (set_trace (fun t => t ++ [Debug (to_str (c_name c) +:+ " process error: " +:+
                                         to_str (message err))]) w)).
Proof. intros H. unfold proc_on_error. unfold_monad. by rewrite H. Qed.

Lemma proc_on_error_none proc err w :
  children w !! proc = None -> proc_on_error proc err w = (Return tt, w).
Proof. intros H. unfold proc_on_error. unfold_monad. by rewrite H. Qed.

Lemma proc_on_close_spec proc code w c :
  children w !! proc = Some c ->
  let w' := snd (proc_on_close proc code w) in
  processes (this w') =
    match indexOf (processes (this w)) (c_procInfo c) with
    | Some i => delete i (processes (this w))
    | None => processes (this w)
    end /\
  rpc (this w') = rpc (this w) /\
  children w' = <[proc := set_deferred (close_deferred c code) c]> (children w) /\
  (fresh w <= fresh w')%nat /\
  calls w' = match c_masterRpc c with
             | Some _ => <[fresh w := CallOnProcessEnd]> (calls w)
             | None => calls w
             end /\
  exists rest,
    trace w' = trace w ++
      Debug (to_str (c_name c) +:+ " process close") ::
      close_removal w c :: close_notification w c code :: rest /\
    forallb (fun e => negb (is_RpcCall e)) rest = true.
Proof.
  intros H. unfold proc_on_close, close_deferred, close_settlement,
    close_removal, close_notification, procFinInfo.
  unfold_monad. simpl. rewrite H. simpl.
  destruct (c_lastProcError c) as [e|] eqn:He; simpl;
  destruct (indexOf (processes (this w)) (c_procInfo c)) as [i|] eqn:Hi;
  destruct (c_masterRpc c) as [r|] eqn:Hr; simpl;
  destruct (strict_eq (c_promise c) (AStr "execution")) eqn:Hm; simpl;
  try (destruct (strict_eq code (ANum 0)); simpl);
  rewrite ?H; simpl;
  try (destruct (c_deferred c) eqn:Hd; simpl);
  rewrite <- ?Hd, ?set_deferred_id, ?(insert_id _ _ _ H);
  (split_and!; [done|done|done|lia|done|]);
  rewrite <- ?app_assoc; simpl; eexists; (split; [reflexivity|reflexivity]).
Qed.

Lemma proc_on_close_none proc code w :
  children w !! proc = None -> proc_on_close proc code w = (Return tt, w).
Proof. intros H. unfold proc_on_close. unfold_monad. by rewrite H. Qed.

(** ** No public output has a [_proc] *)

Lemma toPublicProcInfo_truthy o :
  truthy (prop o "_proc") = true -> no_proc (toPublicProcInfo o).
Proof.
  intros H. unfold no_proc, toPublicProcInfo, extend.
  rewrite (right_id_L ∅ (∪)), H. apply lookup_delete_eq.
Qed.

Lemma toPublicProcInfo_no_proc o h :
  o !! "_proc" = Some (AHandle h) -> no_proc (toPublicProcInfo o).
Proof. apply toPublicProcInfo_handle. Qed.

Lemma trace_ext_refl w : trace_ext w w.
Proof. exists []. by rewrite app_nil_r. Qed.

Ltac solve_trace_ext :=
  intros; unfold trace_ext; handler_cases;
  rewrite <- ?app_assoc;
  first [ by (exists []; rewrite app_nil_r)
        | eexists; split; [reflexivity|];
          repeat (apply Forall_cons; split); try apply Forall_nil;
          unfold effect_ok; simpl;
          repeat (apply Forall_cons; split); try apply Forall_nil;
          try done; eauto using toPublicProcInfo_truthy, toPublicProcInfo_no_proc ].

Lemma connect_trace opts w : trace_ext w (snd (connect rt opts w)).
Proof. unfold connect. solve_trace_ext. Qed.

Lemma getInfo_trace facts w : trace_ext w (snd (getInfo facts w)).
Proof. unfold getInfo. solve_trace_ext. Qed.

Lemma getProcesses_trace lookup w : trace_ext w (snd (getProcesses lookup w)).
Proof. unfold getProcesses. solve_trace_ext. Qed.

Lemma kill_trace opts w : trace_ext w (snd (kill rt opts w)).
Proof.
  unfold kill. solve_trace_ext.
  apply toPublicProcInfo_truthy. by apply negb_false_iff.
Qed.

Lemma socket_on_connect_trace sock w : trace_ext w (snd (socket_on_connect sock w)).
Proof.
  unfold socket_on_connect, settle_connect, _onRawSocketConnection, reconnect_log.
  solve_trace_ext.
Qed.

Lemma socket_on_error_trace sock err w : trace_ext w (snd (socket_on_error sock err w)).
Proof.
  unfold socket_on_error, settle_connect, reconnect_log.
  solve_trace_ext.
Qed.

Lemma socket_on_close_trace sock w : trace_ext w (snd (socket_on_close sock w)).
Proof. unfold socket_on_close, _onRawSocketClose. solve_trace_ext. Qed.

Lemma mux_on_error_trace m err w : trace_ext w (snd (mux_on_error m err w)).
Proof. unfold mux_on_error, _onMuxError. solve_trace_ext. Qed.

Lemma _onPingInterval_trace time w : trace_ext w (snd (_onPingInterval rt time w)).
Proof.
  unfold _onPingInterval, connect, reconnect_log.
  solve_trace_ext.
Qed.

Lemma call_on_reply_trace c data rTime w : trace_ext w (snd (call_on_reply c data rTime w)).
Proof. unfold call_on_reply. solve_trace_ext. Qed.

Lemma call_on_failure_trace c err w : trace_ext w (snd (call_on_failure c err w)).
Proof. unfold call_on_failure. solve_trace_ext. Qed.

Lemma stream_on_error_trace s err w : trace_ext w (snd (stream_on_error s err w)).
Proof. unfold stream_on_error. solve_trace_ext. Qed.

Lemma proc_on_error_trace proc err w : trace_ext w (snd (proc_on_error proc err w)).
Proof. unfold proc_on_error. solve_trace_ext. Qed.

(** ** The registry invariant *)

Lemma indexOf_Some l r i :
  indexOf l r = Some i -> exists x, l !! i = Some x /\ addr x = addr r.
Proof.
  revert i. induction l as [|x l IH]; intros i; simpl; [done|].
  destruct (decide (addr x = addr r)) as [E|E].
  - intros [= <-]. by exists x.
  - destruct (indexOf l r) as [j|]; simpl; [|done].
    intros [= <-]. by apply IH.
Qed.

Lemma indexOf_None l r :
  indexOf l r = None -> addr r ∉ addr <$> l.
Proof.
  induction l as [|x l IH]; simpl.
  - intros _. apply not_elem_of_nil.
  - destruct (decide (addr x = addr r)) as [E|E]; [done|].
    destruct (indexOf l r); simpl; [done|]. intros _.
    rewrite not_elem_of_cons. split; [congruence | by apply IH].
Qed.

Lemma NoDup_delete_notin (l : list nat) i x :
  NoDup l -> l !! i = Some x -> x ∉ delete i l.
Proof.
  revert i. induction l as [|y l IH]; intros i Hnd Hi; [done|].
  apply NoDup_cons in Hnd as [Hy Hnd].
  destruct i as [|i]; simpl in *.
  - by injection Hi as ->.
  - rewrite not_elem_of_cons. split.
    + intros ->. apply Hy. by eapply list_elem_of_lookup_2.
    + by apply IH.
Qed.

Lemma self_record_pid pid : prop (fields (self_record pid)) "pid" = ANum pid.
Proof. reflexivity. Qed.

Lemma self_record_protected pid : prop (fields (self_record pid)) "protected" = ABool true.
Proof. reflexivity. Qed.

Lemma self_record_proc pid : fields (self_record pid) !! "_proc" = Some (AHandle process_handle).
Proof. reflexivity. Qed.

Lemma Inv_new opts pid : Inv pid (PMNode_new opts pid).
Proof.
  split; simpl.
  - exists []. by split.
  - apply NoDup_singleton.
  - repeat constructor.
  - intros p c H. by rewrite lookup_empty in H.
Qed.

Lemma Inv_fresh_ge pid w : Inv pid w -> (2 <= fresh w)%nat.
Proof.
  intros [(rest & Hp & _) _ Hf _]. rewrite Hp in Hf.
  apply Forall_cons in Hf as [Hf _]. simpl in Hf. lia.
Qed.

Lemma Inv_same pid w w' : same_registry w w' -> Inv pid w -> Inv pid w'.
Proof.
  intros (Hp & Hc & Hf) [H1 H2 H3 H4]. split; rewrite ?Hp, ?Hc; try done.
  - eapply Forall_impl; [exact H3|]. simpl. intros; lia.
  - intros p c H. destruct (H4 p c H). split; [lia|done].
Qed.

(** A listener that updates the environment of one child, keeping its
    record, preserves the invariant. *)
Lemma Inv_child_update pid w w' p c c' :
  processes (this w') = processes (this w) ->
  (fresh w <= fresh w')%nat ->
  children w !! p = Some c ->
  children w' = <[p := c']> (children w) ->
  c_procInfo c' = c_procInfo c ->
  Inv pid w -> Inv pid w'.
Proof.
  intros Hp Hf Hc Hcs Hr [H1 H2 H3 H4]. split; rewrite ?Hp, ?Hcs; try done.
  - eapply Forall_impl; [exact H3|]. simpl. intros; lia.
  - intros q d. destruct (decide (p = q)) as [<-|Hne].
    + rewrite lookup_insert_eq. intros [= <-]. rewrite Hr.
      destruct (H4 p c Hc). split; [lia|done].
    + rewrite lookup_insert_ne by done. intros H.
      destruct (H4 q d H). split; [lia|done].
Qed.

Lemma Inv_delete pid w w' i x :
  processes (this w) !! i = Some x ->
  (3 <= addr x)%nat ->
  processes (this w') = delete i (processes (this w)) ->
  children w' = children w ->
  (fresh w <= fresh w')%nat ->
  Inv pid w -> Inv pid w'.
Proof.
  intros Hi Hx Hp Hc Hf [(rest & H1 & H1') H2 H3 H4].
  destruct i as [|i]; [rewrite H1 in Hi; injection Hi as <-; simpl in Hx; lia|].
  split; rewrite ?Hp, ?Hc.
  - exists (delete i rest). rewrite H1. split; [done|].
    by apply Forall_delete.
  - rewrite list_fmap_delete.
    eapply sublist_NoDup; [exact H2 | apply sublist_delete].
  - apply Forall_delete.
    eapply Forall_impl; [exact H3|]. simpl. intros; lia.
  - intros q d H. destruct (H4 q d H). split; [lia|done].
Qed.

Lemma snd_ignore {A} (m : M A) w : snd (ignore m w) = snd (m w).
Proof. unfold ignore, bind, ret. by destruct (m w) as [[a|e] w']. Qed.

Lemma Inv_proc_on_error pid proc err w :
  Inv pid w -> Inv pid (snd (proc_on_error proc err w)).
Proof.
  intros HI. destruct (children w !! proc) as [c|] eqn:Hc.
  - rewrite (proc_on_error_spec _ _ _ _ Hc). simpl.
    by eapply (Inv_child_update pid w _ proc c); [..|exact HI].
  - by rewrite (proc_on_error_none _ _ _ Hc).
Qed.

Lemma Inv_proc_on_close pid proc code w :
  Inv pid w -> Inv pid (snd (proc_on_close proc code w)).
Proof.
  intros HI. destruct (children w !! proc) as [c|] eqn:Hc.
  - destruct (proc_on_close_spec proc code w c Hc) as (Hp & _ & Hcs & Hf & _).
    set (w' := snd (proc_on_close proc code w)) in *.
    (* first the removal, then the update of the child's environment *)
    assert (Inv pid (set_this (fun _ => this w') w)) as HI'.
    { destruct (indexOf (processes (this w)) (c_procInfo c)) as [i|] eqn:Hi.
      - apply indexOf_Some in Hi as (x & Hx & Hax).
        eapply (Inv_delete pid w _ i x); try done.
        destruct (inv_children pid w HI proc c Hc) as (_ & H2 & Ha & _).
        rewrite Hax, Ha. lia.
      - eapply (Inv_same pid w); [|exact HI]. by repeat split. }
    by eapply (Inv_child_update pid _ w' proc c); [..|exact HI'].
  - by rewrite (proc_on_close_none _ _ _ Hc).
Qed.

Lemma Inv_child_views pid w proc c :
  Inv pid w ->
  children w !! proc = Some c ->
  no_proc (toPublicProcInfo (fields (c_procInfo c))) /\
  (forall code, no_proc (toPublicProcInfo (extend {[ "code" := code ]} (fields (c_procInfo c))))) /\
  (forall code e, no_proc (toPublicProcInfo
     (<["error" := e]> (extend {[ "code" := code ]} (fields (c_procInfo c)))))).
Proof.
  intros HI Hc. destruct (inv_children pid w HI proc c Hc) as (_ & _ & _ & _ & Hh).
  split_and!; intros; apply (toPublicProcInfo_no_proc _ proc).
  - done.
  - unfold extend. by apply lookup_union_Some_l.
  - rewrite lookup_insert_ne by done. unfold extend. by apply lookup_union_Some_l.
Qed.

Lemma proc_on_close_trace pid proc code w :
  Inv pid w -> trace_ext w (snd (proc_on_close proc code w)).
Proof.
  intros HI. destruct (children w !! proc) as [c|] eqn:Hc.
  - destruct (Inv_child_views pid w proc c HI Hc) as (_ & A1 & A2).
    unfold proc_on_close. solve_trace_ext.
  - rewrite (proc_on_close_none _ _ _ Hc). apply trace_ext_refl.
Qed.

Lemma proc_on_tick_trace pid proc w :
  Inv pid w -> trace_ext w (snd (proc_on_tick proc w)).
Proof.
  intros HI. destruct (children w !! proc) as [c|] eqn:Hc.
  - destruct (Inv_child_views pid w proc c HI Hc) as (A0 & _ & _).
    unfold proc_on_tick. solve_trace_ext.
  - unfold proc_on_tick. unfold_monad. rewrite Hc. apply trace_ext_refl.
Qed.


(** [opts.name || path.basename(opts.command)] *)
Lemma spawn_name_outcome opts :
  (if truthy (prop (spawn_opts opts) "name") then ret (prop (spawn_opts opts) "name")
   else path_basename rt (prop (spawn_opts opts) "command")) =
  if spawn_named opts then ret (spawn_name rt opts) else throw PathTypeError.
Proof.
  unfold spawn_named, spawn_name, path_basename.
  destruct (truthy _); simpl; [done|].
  by destruct (prop _ "command").
Qed.

Lemma spawn_trace opts launch w : trace_ext w (snd (spawn rt opts launch w)).
Proof.
  unfold spawn, pipe_std. fold (spawn_opts opts).
  rewrite spawn_name_outcome.
  set (name := spawn_name rt opts). clearbody name.
  solve_trace_ext.
Qed.

Lemma step_trace pid w e : Inv pid w -> trace_ext w (step rt w e).
Proof.
  intros HI. unfold step. destruct e; unfold handle; rewrite ?snd_ignore.
  - apply connect_trace.
  - apply getInfo_trace.
  - apply getProcesses_trace.
  - apply spawn_trace.
  - apply kill_trace.
  - apply socket_on_connect_trace.
  - apply socket_on_error_trace.
  - apply socket_on_close_trace.
  - apply mux_on_error_trace.
  - apply _onPingInterval_trace.
  - apply call_on_reply_trace.
  - apply call_on_failure_trace.
  - apply proc_on_error_trace.
  - by eapply proc_on_close_trace.
  - unfold bind, get, modify. simpl. destruct (bool_decide _); simpl.
    + destruct (proc_on_tick_trace pid proc (set_ticks (fun ts => filter (fun p => p ≠ proc) ts) w))
        as (t & Ht & Hok).
      { destruct HI; by split. }
      exists t. split; [|done].
      by destruct (proc_on_tick proc _) as [[[]|?] ?].
    + apply trace_ext_refl.
  - apply stream_on_error_trace.
Qed.

(** C3. [connect] while a socket or an RPC channel exists returns a promise
    that is already settled -- fulfilled, with the error object
    ['client is conencted'] as its value -- and leaves the whole world as it
    was: no socket is opened, no timer is set, nothing is logged. *)
Theorem connect_while_connected (opts : Obj) (w : World) :
  is_Some (rpc (this w)) \/ is_Some (rawSocket (this w)) ->
  connect rt opts w =
    (Return (Settled (Fulfilled (RAtom (AError "client is conencted")))), w).
Proof.
  intros H. unfold connect. unfold_monad.
  assert (isSome (rpc (this w)) || isSome (rawSocket (this w)) = true) as ->.
  { apply orb_true_iff. rewrite !isSome_true. exact H. }
  reflexivity.
Qed.

(** C4. [spawn] without a truthy [command], or with a [promise] option that
    is neither ['creation'] nor ['execution'], returns a promise that is
    already settled -- fulfilled, with an error object as its value -- and
    only writes one line of debug output: no process is launched and the
    registry (like the rest of the world) is unchanged. *)
Theorem spawn_usage_error (opts : Obj) (launch : Launch) (w : World) :
  truthy (prop opts "command") = false \/
  (exists v, opts !! "promise" = Some v /\
             v ≠ AStr "creation" /\ v ≠ AStr "execution") ->
  exists msg log,
    spawn rt opts launch w =
      (Return (Settled (Fulfilled (RAtom (AError msg)))),
       set_trace (fun t => t ++ [Debug log]) w).
Proof.
  intros H. unfold spawn. fold (spawn_opts opts).
  rewrite (spawn_opts_other opts "command") by done.
  destruct (truthy (prop opts "command")) eqn:Hc; simpl.
  - destruct H as [H | (v & Hv & Hn1 & Hn2)]; [done|].
    rewrite spawn_opts_promise, Hv. simpl.
    rewrite contains_modes_false by done. simpl.
    unfold_monad. simpl. eauto.
  - unfold_monad. simpl. eauto.
Qed.

(** When [child_process.spawn] throws, [spawn] answers with a promise that
    is already fulfilled with the exception, and only logs. *)
Lemma spawn_launch_throws (opts : Obj) (err : Atom) (w : World) :
  truthy (prop opts "command") = true ->
  contains [AStr "creation"; AStr "execution"] (prop (spawn_opts opts) "promise") = true ->
  spawn_named opts = true ->
  spawn rt opts (LaunchThrows err) w =
    (Return (Settled (Fulfilled (RAtom err))),
     set_trace (fun t => t ++
       [Debug ("starting " +:+ to_str (spawn_name rt opts) +:+ " process");
        ChildSpawn (prop opts "command") (prop (spawn_opts opts) "args");
        Debug (to_str (spawn_name rt opts) +:+ " process spwan error: " +:+
               to_str (message err))]) w).
Proof.
  intros Hc Hp Hn. unfold spawn. fold (spawn_opts opts).
  rewrite spawn_name_outcome, Hn.
  rewrite !(spawn_opts_other opts "command") by done.
  rewrite Hc, Hp. simpl.
  unfold_monad. simpl. destruct w; unfold set_trace; simpl.
  by rewrite <- !app_assoc.
Qed.

(** A [spawn] with valid options whose process is launched pushes one
    record and registers the listeners of the new process. *)
Lemma spawn_launched (opts : Obj) (pid : Atom) (w : World) :
  truthy (prop opts "command") = true ->
  contains [AStr "creation"; AStr "execution"] (prop (spawn_opts opts) "promise") = true ->
  spawn_named opts = true ->
  let w' := snd (spawn rt opts (Launched pid) w) in
  exists c,
    processes (this w') = processes (this w) ++ [spawn_procInfo rt opts pid (fresh w)] /\
    children w' = <[fresh w := c]> (children w) /\
    (S (S (fresh w)) <= fresh w')%nat /\
    c_name c = spawn_name rt opts /\
    c_procInfo c = spawn_procInfo rt opts pid (fresh w) /\
    c_promise c = prop (spawn_opts opts) "promise" /\
    c_masterRpc c = rpc (this w) /\
    c_lastProcError c = None /\
    c_deferred c =
      (if strict_eq (prop (spawn_opts opts) "promise") (AStr "creation")
       then Fulfilled (RObj (toPublicProcInfo (fields (spawn_procInfo rt opts pid (fresh w)))))
       else Pending) /\
    (fst (spawn rt opts (Launched pid) w) = Return (OfChild (fresh w)) \/
     fst (spawn rt opts (Launched pid) w) = Throw TypeError).
Proof.
  intros Hc Hp Hn.
  unfold spawn, spawn_procInfo. fold (spawn_opts opts).
  rewrite spawn_name_outcome, Hn.
  rewrite !(spawn_opts_other opts "command") by done.
  set (name := spawn_name rt opts).
  clearbody name. rewrite Hc, Hp. simpl.
  destruct (strict_eq (prop (spawn_opts opts) "promise") (AStr "creation")) eqn:Hm.
  - unfold_monad. simpl. rewrite lookup_insert_eq. simpl.
    eexists (set_deferred _ {| c_name := name; c_deferred := Pending |}).
    split_and!; simpl; try done; try lia; [|by left].
    by rewrite insert_insert_eq.
  - unfold pipe_std. unfold_monad. simpl.
    eexists {| c_name := name; c_deferred := Pending |}.
    repeat (case_match; simplify_eq/=); split_and!; simpl; try done; try lia; auto.
Qed.

(** In execution mode the promise of the child is handed back when every
    stream that is asked for can be created. *)
Lemma spawn_execution_promise (opts : Obj) (pid : Atom) (w : World) :
  truthy (prop opts "command") = true ->
  spawn_named opts = true ->
  prop (spawn_opts opts) "promise" = AStr "execution" ->
  (mux (this w) = None ->
   truthy (prop opts "stdout") = false /\ truthy (prop opts "stderr") = false) ->
  fst (spawn rt opts (Launched pid) w) = Return (OfChild (fresh w)).
Proof.
  intros Hc Hn Hm Hmux. unfold spawn, pipe_std. fold (spawn_opts opts).
  rewrite spawn_name_outcome, Hn.
  rewrite !(spawn_opts_other opts "command") by done.
  rewrite !(spawn_opts_other opts "stdout") by done.
  rewrite !(spawn_opts_other opts "stderr") by done.
  rewrite Hc, Hm. simpl. unfold_monad. simpl.
  destruct (mux (this w)) as [m|] eqn:E.
  - destruct (truthy (prop opts "stdout")), (truthy (prop opts "stderr"));
      repeat (simpl; rewrite ?E); done.
  - destruct Hmux as [-> ->]; done.
Qed.

(** What [spawn] does to the registry and to the child listeners: nothing,
    or what [spawn_launched] says. *)
Lemma spawn_cases (opts : Obj) (launch : Launch) (w : World) :
  let w' := snd (spawn rt opts launch w) in
  same_registry w w' \/
  exists pid c,
    launch = Launched pid /\
    truthy (prop opts "command") = true /\
    contains [AStr "creation"; AStr "execution"] (prop (spawn_opts opts) "promise") = true /\
    processes (this w') = processes (this w) ++ [spawn_procInfo rt opts pid (fresh w)] /\
    children w' = <[fresh w := c]> (children w) /\
    (S (S (fresh w)) <= fresh w')%nat /\
    c_procInfo c = spawn_procInfo rt opts pid (fresh w).
Proof.
  destruct (spawn_named opts) eqn:Hn.
  2: { left. unfold spawn. fold (spawn_opts opts).
       rewrite spawn_name_outcome, Hn.
       solve_same_registry. }
  destruct (truthy (prop opts "command")) eqn:Hc.
  2: { left. unfold spawn. fold (spawn_opts opts).
       rewrite !(spawn_opts_other opts "command"), Hc by done.
       solve_same_registry. }
  destruct (contains [AStr "creation"; AStr "execution"]
              (prop (spawn_opts opts) "promise")) eqn:Hp.
  2: { left. unfold spawn. fold (spawn_opts opts).
       rewrite !(spawn_opts_other opts "command"), Hc, Hp by done.
       solve_same_registry. }
  destruct launch as [err|pid].
  { left. unfold spawn. fold (spawn_opts opts).
    rewrite spawn_name_outcome, Hn.
    rewrite !(spawn_opts_other opts "command"), Hc, Hp by done.
    solve_same_registry. }
  right. exists pid.
  destruct (spawn_launched opts pid w Hc Hp Hn) as (c & H1 & H2 & H3 & _ & H4 & _).
  exists c. by split_and!.
Qed.

Lemma spawn_procInfo_child_record opts pid p :
  (2 <= p)%nat -> child_record p (spawn_procInfo rt opts pid p).
Proof. intros H. by repeat split. Qed.

Lemma Inv_spawn pid opts launch w :
  Inv pid w -> Inv pid (snd (spawn rt opts launch w)).
Proof.
  intros HI.
  destruct (spawn_cases opts launch w) as [Hs | (pid' & c & _ & _ & _ & Hp & Hc & Hf & Hr)].
  { by eapply Inv_same. }
  pose proof (Inv_fresh_ge pid w HI) as Hge.
  destruct HI as [(rest & H1 & H1') H2 H3 H4].
  split; rewrite ?Hp, ?Hc.
  - exists (rest ++ [spawn_procInfo rt opts pid' (fresh w)]).
    rewrite H1. split; [done|].
    apply Forall_app. split; [done|].
    apply Forall_singleton. exists (fresh w).
    by apply spawn_procInfo_child_record.
  - rewrite fmap_app. apply NoDup_app. split_and!; [done| |apply NoDup_singleton].
    intros a Ha. simpl. rewrite list_elem_of_singleton. intros ->.
    apply list_elem_of_fmap in Ha as (r & Hr' & Hin).
    eapply Forall_forall in H3; [|exact Hin]. lia.
  - apply Forall_app. split.
    + eapply Forall_impl; [exact H3|]. simpl. intros; lia.
    + apply Forall_singleton. simpl. lia.
  - intros q d. destruct (decide (fresh w = q)) as [<-|Hne].
    + rewrite lookup_insert_eq. intros [= <-]. rewrite Hr.
      split; [lia|]. by apply spawn_procInfo_child_record.
    + rewrite lookup_insert_ne by done. intros H.
      destruct (H4 q d H). split; [lia|done].
Qed.

Lemma Inv_step pid w e : Inv pid w -> Inv pid (step rt w e).
Proof.
  intros HI. unfold step. destruct e; unfold handle; rewrite ?snd_ignore.
  - eapply Inv_same; [apply connect_same | done].
  - eapply Inv_same; [apply getInfo_same | done].
  - eapply Inv_same; [apply getProcesses_same | done].
  - by apply Inv_spawn.
  - eapply Inv_same; [apply kill_same | done].
  - eapply Inv_same; [apply socket_on_connect_same | done].
  - eapply Inv_same; [apply socket_on_error_same | done].
  - eapply Inv_same; [apply socket_on_close_same | done].
  - eapply Inv_same; [apply mux_on_error_same | done].
  - eapply Inv_same; [apply _onPingInterval_same | done].
  - eapply Inv_same; [apply call_on_reply_same | done].
  - eapply Inv_same; [apply call_on_failure_same | done].
  - by apply Inv_proc_on_error.
  - by apply Inv_proc_on_close.
  - eapply Inv_same; [|done]. unfold proc_on_tick. solve_same_registry.
  - eapply Inv_same; [apply stream_on_error_same | done].
Qed.

Lemma Inv_reachable opts pid w : reachable rt opts pid w -> Inv pid w.
Proof.
  induction 1 as [|w e _ IH]; [apply Inv_new | by apply Inv_step].
Qed.

(** *** A child between its launch and its close event *)

Lemma set_lastProcError_id c : set_lastProcError (c_lastProcError c) c = c.
Proof. by destruct c. Qed.

(** Until its close event, the environment of a child only changes in the
    error it remembers, and its record stays in the registry. *)
Lemma step_keeps_child pid w e proc c :
  Inv pid w ->
  children w !! proc = Some c ->
  is_close proc e = false ->
  children (step rt w e) !! proc =
    Some (set_lastProcError (observe_error proc (c_lastProcError c) e) c) /\
  (S proc ∈ registry w -> S proc ∈ registry (step rt w e)).
Proof.
  intros HI Hc He.
  assert (forall w', same_registry w w' ->
            children w' !! proc = Some (set_lastProcError (c_lastProcError c) c) /\
            (S proc ∈ registry w -> S proc ∈ registry w')) as Hsame.
  { intros w' (Hp & Hcs & _). unfold registry.
    by rewrite Hp, Hcs, set_lastProcError_id. }
  unfold step. destruct e; unfold handle, observe_error; rewrite ?snd_ignore.
  - apply Hsame, connect_same.
  - apply Hsame, getInfo_same.
  - apply Hsame, getProcesses_same.
  - destruct (spawn_cases opts launch w)
      as [Hs | (pid' & c' & _ & _ & _ & Hp & Hcs & _)]; [by apply Hsame|].
    destruct (inv_children pid w HI proc c Hc) as [Hlt _].
    unfold registry. rewrite Hp, Hcs, lookup_insert_ne by lia.
    rewrite set_lastProcError_id, fmap_app. split; [done|].
    intros H. apply elem_of_app. by left.
  - apply Hsame, kill_same.
  - apply Hsame, socket_on_connect_same.
  - apply Hsame, socket_on_error_same.
  - apply Hsame, socket_on_close_same.
  - apply Hsame, mux_on_error_same.
  - apply Hsame, _onPingInterval_same.
  - apply Hsame, call_on_reply_same.
  - apply Hsame, call_on_failure_same.
  - destruct (decide (proc0 = proc)) as [->|Hne].
    + rewrite (proc_on_error_spec _ _ _ _ Hc). simpl.
      by rewrite lookup_insert_eq.
    + rewrite set_lastProcError_id.
      destruct (children w !! proc0) as [c0|] eqn:Hc0.
      * rewrite (proc_on_error_spec _ _ _ _ Hc0). simpl.
        by rewrite lookup_insert_ne.
      * by rewrite (proc_on_error_none _ _ _ Hc0).
  - simpl in He. apply bool_decide_eq_false in He.
    rewrite set_lastProcError_id.
    destruct (children w !! proc0) as [c0|] eqn:Hc0.
    + destruct (proc_on_close_spec proc0 code w c0 Hc0) as (Hp & _ & Hcs & _).
      unfold registry. rewrite Hp, Hcs, lookup_insert_ne by done.
      split; [done|].
      destruct (indexOf (processes (this w)) (c_procInfo c0)) as [i|] eqn:Hi; [|done].
      apply indexOf_Some in Hi as (x & Hx & Hax).
      destruct (inv_children pid w HI proc0 c0 Hc0) as (_ & _ & Ha & _).
      rewrite list_fmap_delete. intros Hin.
      apply list_elem_of_lookup in Hin as (j & Hj).
      destruct (decide (i = j)) as [->|Hij].
      { rewrite list_lookup_fmap, Hx in Hj. simpl in Hj. congruence. }
      apply list_elem_of_lookup.
      destruct (decide (j < i)%nat).
      * exists j. by rewrite list_lookup_delete_lt.
      * destruct j as [|j]; [lia|]. exists j.
        rewrite list_lookup_delete_ge by lia. done.
    + by rewrite (proc_on_close_none _ _ _ Hc0).
  - apply Hsame. unfold proc_on_tick. solve_same_registry.
  - apply Hsame, stream_on_error_same.
Qed.

Lemma run_keeps_child pid es : forall w proc c,
  Inv pid w ->
  children w !! proc = Some c ->
  c_lastProcError c = None ->
  no_close proc es = true ->
  S proc ∈ registry w ->
  children (run rt w es) !! proc =
    Some (set_lastProcError (last_error proc es) c) /\
  S proc ∈ registry (run rt w es) /\
  Inv pid (run rt w es).
Proof.
  unfold last_error.
  assert (forall err0 w proc c,
    Inv pid w ->
    children w !! proc = Some (set_lastProcError err0 c) ->
    no_close proc es = true ->
    S proc ∈ registry w ->
    children (run rt w es) !! proc =
      Some (set_lastProcError (foldl (observe_error proc) err0 es) c) /\
    S proc ∈ registry (run rt w es) /\
    Inv pid (run rt w es)) as Hgen.
  { induction es as [|e es IH]; intros err0 w proc c HI Hc Hn Hin; [done|].
    simpl in Hn. apply andb_true_iff in Hn as [He Hn].
    apply negb_true_iff in He.
    destruct (step_keeps_child pid w e proc _ HI Hc He) as [Hc' Hin'].
    simpl. apply IH; [by apply Inv_step| |done|by apply Hin']. exact Hc'. }
  intros w proc c HI Hc Herr Hn Hin.
  apply Hgen; try done. by rewrite <- Herr, set_lastProcError_id.
Qed.

(** Addresses are never reused: a step only adds the record it allocates. *)
Lemma step_registry w e a :
  (fresh w <= fresh (step rt w e))%nat /\
  (a ∈ registry (step rt w e) -> a ∈ registry w \/ (fresh w <= a)%nat).
Proof.
  assert (forall w', same_registry w w' ->
    (fresh w <= fresh w')%nat /\
    (a ∈ registry w' -> a ∈ registry w \/ (fresh w <= a)%nat)) as Hsame.
  { intros w' (Hp & _ & Hf). unfold registry. rewrite Hp. auto. }
  unfold step. destruct e; unfold handle; rewrite ?snd_ignore.
  - apply Hsame, connect_same.
  - apply Hsame, getInfo_same.
  - apply Hsame, getProcesses_same.
  - destruct (spawn_cases opts launch w)
      as [Hs | (pid' & c' & _ & _ & _ & Hp & _ & Hf & _)]; [by apply Hsame|].
    split; [lia|]. unfold registry. rewrite Hp, fmap_app.
    intros [H|H]%elem_of_app; [by left|right].
    apply list_elem_of_singleton in H. simpl in H. lia.
  - apply Hsame, kill_same.
  - apply Hsame, socket_on_connect_same.
  - apply Hsame, socket_on_error_same.
  - apply Hsame, socket_on_close_same.
  - apply Hsame, mux_on_error_same.
  - apply Hsame, _onPingInterval_same.
  - apply Hsame, call_on_reply_same.
  - apply Hsame, call_on_failure_same.
  - destruct (children w !! proc) as [c0|] eqn:Hc0.
    + rewrite (proc_on_error_spec _ _ _ _ Hc0). simpl. auto.
    + rewrite (proc_on_error_none _ _ _ Hc0). auto.
  - destruct (children w !! proc) as [c0|] eqn:Hc0.
    + destruct (proc_on_close_spec proc code w c0 Hc0) as (Hp & _ & _ & Hf & _).
      split; [done|]. unfold registry. rewrite Hp.
      destruct (indexOf _ _); [|by left].
      rewrite list_fmap_delete. intros H. left.
      by eapply list_elem_of_delete_inv.
    + rewrite (proc_on_close_none _ _ _ Hc0). auto.
  - apply Hsame. unfold proc_on_tick. solve_same_registry.
  - apply Hsame, stream_on_error_same.
Qed.

Lemma run_absent es : forall w a,
  (a < fresh w)%nat -> a ∉ registry w -> a ∉ registry (run rt w es).
Proof.
  induction es as [|e es IH]; intros w a Hlt Hn; [done|].
  simpl. destruct (step_registry w e a) as [Hf Hr].
  apply IH; [lia|]. intros H. apply Hr in H as [H|H]; [done|lia].
Qed.

Lemma exit_view (info : Obj) (h : nat) (code : Atom) :
  info !! "_proc" = Some (AHandle h) ->
  info !! "code" = None ->
  let view := toPublicProcInfo (extend {[ "code" := code ]} info) in
  view !! "code" = Some code /\
  view !! "_proc" = None /\
  forall k, k ≠ "_proc" -> k ≠ "code" -> view !! k = info !! k.
Proof.
  intros Hh Hcode view. unfold view. split_and!.
  - rewrite toPublicProcInfo_other by done. unfold extend.
    by rewrite lookup_union_r.
  - apply (toPublicProcInfo_handle _ h). unfold extend.
    by apply lookup_union_Some_l.
  - intros k H1 H2. rewrite toPublicProcInfo_other by done. unfold extend.
    destruct (info !! k) eqn:E.
    + by apply lookup_union_Some_l.
    + rewrite lookup_union_r by done. by apply lookup_singleton_ne.
Qed.

(** C1 (amended). A [spawn] with [promise: 'execution'] whose process is
    launched, whose name has a value, and which asks for output streams
    only while a multiplexer exists, hands back the promise of that child.
    Whatever happens before the close event of the process, the promise is
    pending.  The close event settles it: rejected with the error observed
    last if there was one, rejected with an exit-code error if the code is
    not [0], and otherwise fulfilled with the public view of the record,
    which carries [code: 0] and no [_proc].  From then on the record is not
    in the registry. *)
Theorem spawn_execution_completion
    (opts0 : Obj) (pid0 : Z) (w : World)
    (opts : Obj) (pid : Atom) (es : list Event) (code : Atom) :
  reachable rt opts0 pid0 w ->
  truthy (prop opts "command") = true ->
  spawn_named opts = true ->
  opts !! "promise" = Some (AStr "execution") ->
  (mux (this w) = None ->
   truthy (prop opts "stdout") = false /\ truthy (prop opts "stderr") = false) ->
  no_close (fresh w) es = true ->
  let proc := fresh w in
  let info := fields (spawn_procInfo rt opts pid proc) in
  let view := toPublicProcInfo (extend {[ "code" := ANum 0 ]} info) in
  let w1 := step rt w (EvSpawn opts (Launched pid)) in
  let w2 := run rt w1 es in
  let w3 := step rt w2 (EvProcClose proc code) in
  fst (spawn rt opts (Launched pid) w) = Return (OfChild proc) /\
  deferred_of w2 proc = Some Pending /\
  deferred_of w3 proc = Some
    match last_error proc es with
    | Some err => Rejected err
    | None =>
        if strict_eq code (ANum 0) then Fulfilled (RObj view)
        else Rejected (AError (to_str (spawn_name rt opts) +:+
                               " process exited with code: " +:+ to_str code))
    end /\
  (view !! "code" = Some (ANum 0) /\ view !! "_proc" = None /\
   forall k, k ≠ "_proc" -> k ≠ "code" -> view !! k = info !! k) /\
  forall es', addr (spawn_procInfo rt opts pid proc) ∉
              registry (run rt w3 es').
Proof.
  intros Hr Hc Hnamed Hp Hmux Hn proc info view w1 w2 w3.
  pose proof (Inv_reachable _ _ _ Hr) as HI.
  assert (prop (spawn_opts opts) "promise" = AStr "execution") as Hm
    by (by rewrite spawn_opts_promise, Hp).
  destruct (spawn_launched opts pid w Hc) as
    (c & Hps & Hcs & Hf & Hname & Hinfo & Hprom & _ & Herr & Hd & _).
  { rewrite Hm. by apply contains_modes; right. }
  { exact Hnamed. }
  pose proof (spawn_execution_promise opts pid w Hc Hnamed Hm Hmux) as Hout.
  rewrite Hm in Hd, Hprom. change (c_deferred c = Pending) in Hd.
  assert (Inv pid0 w1) as HI1 by (by apply Inv_step).
  assert (children w1 !! proc = Some c) as Hc1.
  { unfold w1, step, handle. rewrite snd_ignore, Hcs. apply lookup_insert_eq. }
  assert (S proc ∈ registry w1) as Hin1.
  { unfold registry, w1, step, handle. rewrite snd_ignore, Hps, fmap_app.
    apply elem_of_app. right. by apply list_elem_of_singleton. }
  destruct (run_keeps_child pid0 es w1 proc c HI1 Hc1 Herr Hn Hin1)
    as (Hc2 & Hin2 & HI2).
  fold w2 in Hc2, Hin2, HI2.
  split; [exact Hout|].
  split; [unfold deferred_of; rewrite Hc2; simpl; by rewrite Hd|].
  destruct (proc_on_close_spec proc code w2 _ Hc2) as (Hps3 & _ & Hcs3 & Hf3 & _).
  change (snd (proc_on_close proc code w2)) with w3 in Hps3, Hcs3, Hf3.
  split.
  { unfold deferred_of. rewrite Hcs3, lookup_insert_eq. simpl. f_equal.
    unfold close_deferred, close_settlement, procFinInfo. simpl.
    rewrite Hprom, strict_eq_str, Hd, Hname, Hinfo.
    destruct (last_error proc es); [done|].
    destruct (strict_eq code (ANum 0)) eqn:Hcode; [|done].
    apply strict_eq_true in Hcode as ->. done. }
  split; [by apply (exit_view info proc)|].
  intros es'. apply run_absent.
  - destruct (inv_children pid0 w2 HI2 proc _ Hc2) as [Hlt _]. simpl. lia.
  - unfold registry. rewrite Hps3. simpl in *.
    destruct (indexOf (processes (this w2)) (c_procInfo c)) as [i|] eqn:Hi.
    + apply indexOf_Some in Hi as (x & Hx & Hax).
      rewrite list_fmap_delete. apply NoDup_delete_notin.
      * apply (inv_nodup pid0 w2 HI2).
      * rewrite list_lookup_fmap, Hx. simpl. by rewrite Hax, Hinfo.
    + apply indexOf_None in Hi. by rewrite Hinfo in Hi.
Qed.

Lemma end_payload_view (info : Obj) (h : nat) (code : Atom) (err : option Atom) :
  info !! "_proc" = Some (AHandle h) ->
  info !! "code" = None ->
  info !! "error" = None ->
  let view := end_payload info code err in
  view !! "code" = Some code /\
  view !! "error" = err /\
  view !! "_proc" = None /\
  forall k, k ≠ "_proc" -> k ≠ "code" -> k ≠ "error" -> view !! k = info !! k.
Proof.
  intros Hh Hcode Herr view. unfold view, end_payload.
  assert (forall k, k ≠ "code" -> extend {[ "code" := code ]} info !! k = info !! k) as Hext.
  { intros k Hk. unfold extend. destruct (info !! k) eqn:E.
    - by apply lookup_union_Some_l.
    - rewrite lookup_union_r by done. by apply lookup_singleton_ne. }
  assert (extend {[ "code" := code ]} info !! "code" = Some code) as Hext'.
  { unfold extend. by rewrite lookup_union_r. }
  destruct err as [e|]; split_and!.
  - rewrite toPublicProcInfo_other by done. by rewrite lookup_insert_ne.
  - rewrite toPublicProcInfo_other by done. by rewrite lookup_insert_eq.
  - apply (toPublicProcInfo_handle _ h).
    rewrite lookup_insert_ne by done. by rewrite Hext.
  - intros k H1 H2 H3. rewrite toPublicProcInfo_other by done.
    rewrite lookup_insert_ne by done. by apply Hext.
  - by rewrite toPublicProcInfo_other.
  - rewrite toPublicProcInfo_other by done. by rewrite Hext.
  - apply (toPublicProcInfo_handle _ h). by rewrite Hext.
  - intros k H1 H2 H3. rewrite toPublicProcInfo_other by done. by apply Hext.
Qed.

(** C2. A launch that fails does not make [spawn] fail.  When the process
    object comes back without having started (the runtime reports a
    missing executable by the error event of the object), [spawn] in the
    default mode has pushed a record and hands back a promise that is
    fulfilled with its public view; the later error and close events leave
    that promise fulfilled, and the close listener reports the process to
    the master with [onProcessEnd] if an RPC channel existed.  When
    [child_process.spawn] throws instead, no record is pushed and nothing
    but debug output follows, but the promise is fulfilled, with the
    exception as its value. *)
Theorem spawn_launch_failure
    (opts0 : Obj) (pid0 : Z) (w : World)
    (opts : Obj) (pid : Atom) (msg : string) (code err : Atom) :
  reachable rt opts0 pid0 w ->
  truthy (prop opts "command") = true ->
  spawn_named opts = true ->
  opts !! "promise" = None ->
  let proc := fresh w in
  let record := spawn_procInfo rt opts pid proc in
  let view := toPublicProcInfo (fields record) in
  let payload := end_payload (fields record) code (Some (AError msg)) in
  let w1 := step rt w (EvSpawn opts (Launched pid)) in
  let w2 := step rt w1 (EvProcError proc msg) in
  let w3 := step rt w2 (EvProcClose proc code) in
  (fst (spawn rt opts (Launched pid) w) = Return (OfChild proc) /\
   deferred_of w1 proc = Some (Fulfilled (RObj view)) /\
   view !! "pid" = Some pid /\
   (addr record ∈ registry w1) /\
   deferred_of w3 proc = Some (Fulfilled (RObj view)) /\
   (forall r, rpc (this w) = Some r ->
      RpcCall r "onProcessEnd" payload (fresh w2) ∈ trace w3) /\
   payload !! "error" = Some (AError msg)) /\
  spawn rt opts (LaunchThrows err) w =
    (Return (Settled (Fulfilled (RAtom err))),
     set_trace (fun t => t ++
       [Debug ("starting " +:+ to_str (spawn_name rt opts) +:+ " process");
        ChildSpawn (prop opts "command") (prop (spawn_opts opts) "args");
        Debug (to_str (spawn_name rt opts) +:+ " process spwan error: " +:+
               to_str (message err))]) w).
Proof.
  intros Hr Hc Hnamed Hp proc record view payload w1 w2 w3.
  pose proof (Inv_reachable _ _ _ Hr) as HI.
  assert (prop (spawn_opts opts) "promise" = AStr "creation") as Hm
    by (by rewrite spawn_opts_promise, Hp).
  assert (contains [AStr "creation"; AStr "execution"]
            (prop (spawn_opts opts) "promise") = true) as Hmode.
  { rewrite Hm. by apply contains_modes; left. }
  split; [|by apply spawn_launch_throws].
  destruct (spawn_launched opts pid w Hc Hmode Hnamed) as
    (c & Hps & Hcs & Hf & Hname & Hinfo & Hprom & Hrpc & Herr & Hd & [Hret|Hret]).
  2: { exfalso. revert Hret. unfold spawn. fold (spawn_opts opts).
       rewrite spawn_name_outcome, Hnamed.
       rewrite !(spawn_opts_other opts "command") by done.
       rewrite Hc, Hm. simpl. unfold_monad. simpl.
       by rewrite lookup_insert_eq. }
  rewrite Hm, strict_eq_str in Hd. rewrite Hm in Hprom.
  assert (Inv pid0 w1) as HI1 by (by apply Inv_step).
  assert (children w1 !! proc = Some c) as Hc1.
  { unfold w1, step, handle. rewrite snd_ignore, Hcs. apply lookup_insert_eq. }
  assert (S proc ∈ registry w1) as Hin1.
  { unfold registry, w1, step, handle. rewrite snd_ignore, Hps, fmap_app.
    apply elem_of_app. right. by apply list_elem_of_singleton. }
  destruct (run_keeps_child pid0 [EvProcError proc msg] w1 proc c HI1 Hc1 Herr)
    as (Hc2 & _ & _); [reflexivity|exact Hin1|].
  change (run rt w1 [EvProcError proc msg]) with w2 in Hc2.
  assert (last_error proc [EvProcError proc msg] = Some (AError msg)) as Hlast.
  { unfold last_error. simpl. by rewrite decide_True. }
  rewrite Hlast in Hc2.
  destruct (proc_on_close_spec proc code w2 _ Hc2)
    as (_ & _ & Hcs3 & _ & _ & rest & Htr & _).
  change (snd (proc_on_close proc code w2)) with w3 in Hcs3, Htr.
  split_and!.
  - exact Hret.
  - unfold deferred_of. rewrite Hc1. simpl. by rewrite Hd.
  - unfold view. by rewrite toPublicProcInfo_other.
  - exact Hin1.
  - unfold deferred_of. rewrite Hcs3, lookup_insert_eq. simpl.
    unfold close_deferred. simpl. rewrite Hprom.
    rewrite (strict_eq_ne (AStr "creation") (AStr "execution")) by done.
    by rewrite Hd.
  - intros r Hr'. rewrite Htr. apply elem_of_app. right.
    do 2 apply list_elem_of_further.
    unfold close_notification. simpl. rewrite Hrpc, Hr'.
    unfold payload, end_payload, procFinInfo. simpl. rewrite Hinfo.
    apply list_elem_of_here.
  - by apply (end_payload_view _ proc).
Qed.

(** C5. For either completion mode: when the close event of a
    launched child is handled, the listener logs, then removes the record
    from the registry, and only then notifies the master -- through the RPC
    channel that existed when [spawn] was called, whatever the session is
    when the process closes.  If there was one, [onProcessEnd] is called on it with the public
    view of the record (exit code, last captured error, no [_proc]) and a
    failure of that call only adds a debug line; if there was none, no call
    is made.  The record is not in the registry afterwards. *)
Theorem close_removes_then_notifies
    (opts0 : Obj) (pid0 : Z) (w : World)
    (opts : Obj) (pid : Atom) (es : list Event) (code : Atom) :
  reachable rt opts0 pid0 w ->
  truthy (prop opts "command") = true ->
  contains [AStr "creation"; AStr "execution"] (prop (spawn_opts opts) "promise") = true ->
  spawn_named opts = true ->
  no_close (fresh w) es = true ->
  let proc := fresh w in
  let record := spawn_procInfo rt opts pid proc in
  let payload := end_payload (fields record) code (last_error proc es) in
  let w1 := step rt w (EvSpawn opts (Launched pid)) in
  let w2 := run rt w1 es in
  let w3 := step rt w2 (EvProcClose proc code) in
(addr record ∈ registry w2) /\
  (addr record ∉ registry w3) /\
  (exists rest,
     trace w3 = trace w2 ++
       Debug (to_str (spawn_name rt opts) +:+ " process close") ::
       RegistrySplice (addr record) ::
       match rpc (this w) with
       | Some masterRpc => RpcCall masterRpc "onProcessEnd" payload (fresh w2)
       | None => Debug "can not send process end msg to master, disconnected?"
       end :: rest /\
     forallb (fun e => negb (is_RpcCall e)) rest = true) /\
  (payload !! "code" = Some code /\
   payload !! "error" = last_error proc es /\
   payload !! "_proc" = None /\
   forall k, k ≠ "_proc" -> k ≠ "code" -> k ≠ "error" ->
             payload !! k = fields record !! k) /\
  (is_Some (rpc (this w)) ->
   forall msg,
     step rt w3 (EvCallFailure (fresh w2) msg) =
       set_trace (fun t => t ++ [Debug ("onProcessEnd call error: " +:+ msg)])
         (set_calls (fun cs => delete (fresh w2) cs) w3)).
Proof.
  intros Hr Hc Hp Hnamed Hn proc record payload w1 w2 w3.
  pose proof (Inv_reachable _ _ _ Hr) as HI.
  destruct (spawn_launched opts pid w Hc Hp Hnamed) as
    (c & Hps & Hcs & Hf & Hname & Hinfo & Hprom & Hrpc & Herr & _).
  assert (Inv pid0 w1) as HI1 by (by apply Inv_step).
  assert (children w1 !! proc = Some c) as Hc1.
  { unfold w1, step, handle. rewrite snd_ignore, Hcs. apply lookup_insert_eq. }
  assert (S proc ∈ registry w1) as Hin1.
  { unfold registry, w1, step, handle. rewrite snd_ignore, Hps, fmap_app.
    apply elem_of_app. right. by apply list_elem_of_singleton. }
  destruct (run_keeps_child pid0 es w1 proc c HI1 Hc1 Herr Hn Hin1)
    as (Hc2 & Hin2 & HI2).
  fold w2 in Hc2, Hin2, HI2.
  destruct (proc_on_close_spec proc code w2 _ Hc2)
    as (Hps3 & _ & _ & _ & Hcalls & rest & Htr & Hrest).
  change (snd (proc_on_close proc code w2)) with w3 in Hps3, Hcalls, Htr.
  simpl in Hps3, Hcalls, Htr.
  assert (exists i, indexOf (processes (this w2)) (c_procInfo c) = Some i) as [i Hi].
  { destruct (indexOf (processes (this w2)) (c_procInfo c)) as [i|] eqn:Hi; [by eexists|].
    apply indexOf_None in Hi. rewrite Hinfo in Hi. done. }
  split; [exact Hin2|]. split.
  { unfold registry. rewrite Hps3, Hi.
    apply indexOf_Some in Hi as (x & Hx & Hax).
    rewrite list_fmap_delete. apply NoDup_delete_notin.
    - apply (inv_nodup pid0 w2 HI2).
    - rewrite list_lookup_fmap, Hx. simpl. by rewrite Hax, Hinfo. }
  split.
  { exists rest. split; [|exact Hrest]. rewrite Htr.
    unfold close_removal, close_notification. simpl.
    rewrite Hi, Hname, Hinfo, Hrpc.
    unfold payload, end_payload, procFinInfo. simpl. rewrite Hinfo.
    by destruct (last_error proc es), (rpc (this w)). }
  split; [by apply (end_payload_view _ proc)|].
  intros [r Hr'] msg. rewrite Hrpc, Hr' in Hcalls.
  unfold step, handle, call_on_failure. unfold_monad. simpl.
  by rewrite Hcalls, lookup_insert_eq.
Qed.

Lemma Inv_record_handle pid w r :
  Inv pid w -> r ∈ processes (this w) ->
  exists h, fields r !! "_proc" = Some (AHandle h).
Proof.
  intros [(rest & Hp & Hrest) _ _ _]. rewrite Hp.
  intros [->|Hin]%elem_of_cons.
  - eexists. apply self_record_proc.
  - eapply Forall_forall in Hrest as (p & _ & _ & _ & Hh); [|exact Hin]. eauto.
Qed.

Lemma reachable_trace opts pid w :
  reachable rt opts pid w -> Forall effect_ok (trace w).
Proof.
  intros H. induction H as [|w' e Hr IH]; [by apply Forall_nil|].
  destruct (step_trace pid w' e) as (t & -> & Ht); [by eapply Inv_reachable|].
  by apply Forall_app.
Qed.

Lemma Q_all_views l views :
  Q_all l = Fulfilled (RObjs views) -> l = inr <$> views.
Proof.
  revert views. induction l as [|[err|o] l IH]; intros views; simpl.
  - by intros [= <-].
  - done.
  - destruct (Q_all l) as [|[| |os]|] eqn:E; try done.
    intros [= <-]. simpl. f_equal. by apply IH.
Qed.

(** C9. In every reachable state: no object the agent has handed out -- the
    payload of an RPC call ([onProcessEnd]), the value a promise was
    fulfilled with ([spawn], [kill]) or notified -- has a [_proc] property;
    nor has any entry [getProcesses] answers with, as long as the usage
    lookup itself reports no [_proc]; while every record of the registry
    does hold a handle under [_proc], which its public view lacks. *)
Theorem public_views_omit_handle (opts : Obj) (pid : Z) (w : World) :
  reachable rt opts pid w ->
  (forall e o, e ∈ trace w -> o ∈ effect_objects e -> o !! "_proc" = None) /\
  (forall lookup views,
     (forall a result, lookup a = UsageOk result -> result !! "_proc" = None) ->
     fst (getProcesses lookup w) = Return (Settled (Fulfilled (RObjs views))) ->
     Forall (fun o => o !! "_proc" = None) views) /\
  (forall r, r ∈ processes (this w) ->
     (exists h, fields r !! "_proc" = Some (AHandle h)) /\
     toPublicProcInfo (fields r) !! "_proc" = None).
Proof.
  intros Hr. pose proof (Inv_reachable _ _ _ Hr) as HI.
  assert (forall r, r ∈ processes (this w) ->
     (exists h, fields r !! "_proc" = Some (AHandle h)) /\
     toPublicProcInfo (fields r) !! "_proc" = None) as Hrec.
  { intros r Hin. destruct (Inv_record_handle pid w r HI Hin) as [h Hh].
    split; [by exists h | by apply (toPublicProcInfo_handle _ h)]. }
  split_and!; [| |exact Hrec].
  - intros e o He Ho. apply reachable_trace in Hr.
    eapply Forall_forall in Hr; [|exact He].
    eapply Forall_forall in Hr; [exact Hr | exact Ho].
  - intros lookup views Hl. unfold getProcesses. unfold_monad. simpl.
    intros [= Hq]. apply Q_all_views in Hq.
    apply Forall_forall. intros o Ho.
    assert (inr o ∈ map (getProcesses_entry lookup) (processes (this w))) as Hin.
    { rewrite Hq. apply list_elem_of_fmap. by exists o. }
    apply list_elem_of_fmap in Hin as (r & Heq & Hin).
    unfold getProcesses_entry in Heq.
    destruct (lookup (prop (fields r) "pid")) as [err|result] eqn:E; [done|].
    injection Heq as ->. unfold extend.
    rewrite lookup_union_r by (by eapply Hl).
    rewrite (right_id_L ∅ (∪)). by apply Hrec.
Qed.

(** C6. In every state the agent can reach, the protected records of the
    registry are exactly one: the agent's own entry, built by the
    constructor, which is still the first entry. *)
Theorem one_protected_record (opts : Obj) (pid : Z) (w : World) :
  reachable rt opts pid w ->
  List.filter protected (processes (this w)) = [self_record pid] /\
  head (processes (this w)) = Some (self_record pid).
Proof.
  intros Hr. apply Inv_reachable in Hr as [(rest & Hp & Hrest) _ _ _].
  rewrite Hp. split; [|done]. simpl. clear Hp.
  change (protected (self_record pid)) with true. cbv iota. f_equal.
  induction Hrest as [|r rest (p & _ & _ & Hprot & _) _ IH]; [done|].
  simpl. unfold protected at 1, prop. rewrite Hprot. simpl. exact IH.
Qed.

(** C7. In every reachable state, [kill] with the agent's own pid (a pid is
    never 0) and any [signal] returns a promise rejected with
    ['process is protected']; it only logs and settles that promise: no
    signal is delivered and the registry is unchanged. *)
Theorem kill_protected (opts : Obj) (pid : Z) (w : World) (kopts : Obj) :
  reachable rt opts pid w ->
  pid ≠ 0 ->
  kopts !! "pid" = Some (ANum pid) ->
  kill rt kopts w =
    (Return (Settled (Rejected (AError "process is protected"))),
     set_trace (fun t => t ++ [Debug "illigal kill call: process is protected";
                               Settle (Rejected (AError "process is protected"))]) w).
Proof.
  intros Hr Hpid Hk. apply Inv_reachable in Hr as [(rest & Hp & _) _ _ _].
  unfold kill. unfold_monad.
  rewrite (prop_extend_l _ _ _ _ Hk). simpl.
  assert (negb (pid =? 0) = true) as -> by (apply negb_true_iff; lia).
  simpl. rewrite Hp. cbn [findWhere].
  rewrite self_record_pid, strict_eq_num, self_record_protected. simpl.
  destruct w; unfold set_trace; simpl. by rewrite <- app_assoc.
Qed.

(** C8 (amended). When the record [_.findWhere] returns for the requested
    pid is not protected and holds its handle, and the process object
    accepts the signal (['SIGTERM'] when none is given), [kill] calls
    [kill(signal)] on that handle and returns a promise fulfilled with the
    public view of the record: the record without its [_proc], every other
    property unchanged.  Apart from these two actions the world, and so the
    registry, is unchanged. *)
Theorem kill_delivers_signal (kopts : Obj) (r : ProcRef) (w : World) :
  truthy (prop kopts "pid") = true ->
  findWhere (processes (this w)) "pid" (prop kopts "pid") = Some r ->
  protected r = false ->
  truthy (prop (fields r) "_proc") = true ->
  kill_error rt (prop (fields r) "_proc")
             (default (AStr "SIGTERM") (kopts !! "signal")) = None ->
  exists view w',
    kill rt kopts w = (Return (Settled (Fulfilled (RObj view))), w') /\
    (view !! "_proc" = None /\ forall k, k ≠ "_proc" -> view !! k = fields r !! k) /\
    w' = set_trace (fun t => t ++
           [ProcKill (prop (fields r) "_proc")
                     (default (AStr "SIGTERM") (kopts !! "signal"));
            Settle (Fulfilled (RObj view))]) w /\
    processes (this w') = processes (this w).
Proof.
  intros Hpid Hf Hprot Hproc Hsig. unfold protected in Hprot.
  exists (toPublicProcInfo (fields r)). eexists.
  split; [|split; [|split; [reflexivity|done]]].
  2: { split; [by apply toPublicProcInfo_truthy|].
       intros k Hk. by apply toPublicProcInfo_other. }
  unfold kill. unfold_monad.
  assert (prop (extend {[ "signal" := AStr "SIGTERM" ]} kopts) "pid" = prop kopts "pid") as ->.
  { rewrite prop_extend. unfold prop. by destruct (kopts !! "pid"). }
  assert (prop (extend {[ "signal" := AStr "SIGTERM" ]} kopts) "signal" =
          default (AStr "SIGTERM") (kopts !! "signal")) as ->.
  { rewrite prop_extend. by destruct (kopts !! "signal"). }
  rewrite Hpid. simpl. rewrite Hf, Hprot, Hproc. simpl. rewrite Hsig.
  destruct w; unfold set_trace; simpl. by rewrite <- app_assoc.
Qed.

(** C10. With no multiplexer (no session), a [spawn] with
    [promise: 'execution'] and a truthy [stdout] or [stderr] label, whose
    process is launched, does not return a promise: a [TypeError]
    escapes, and the new record is already in the registry. *)
Theorem spawn_execution_without_mux (opts : Obj) (pid : Atom) (w : World) :
  mux (this w) = None ->
  truthy (prop opts "command") = true ->
  spawn_named opts = true ->
  opts !! "promise" = Some (AStr "execution") ->
  truthy (prop opts "stdout") = true \/ truthy (prop opts "stderr") = true ->
  exists w',
    spawn rt opts (Launched pid) w = (Throw TypeError, w') /\
    processes (this w') =
      processes (this w) ++ [spawn_procInfo rt opts pid (fresh w)].
Proof.
  intros Hm Hc Hn Hp Hs. unfold spawn, spawn_procInfo.
  fold (spawn_opts opts).
  rewrite spawn_name_outcome, Hn.
  rewrite !(spawn_opts_other opts "command") by done.
  rewrite !(spawn_opts_other opts "stdout") by done.
  rewrite !(spawn_opts_other opts "stderr") by done.
  rewrite Hc, spawn_opts_promise, Hp. simpl.
  unfold pipe_std. unfold_monad. simpl.
  destruct (truthy (prop opts "stdout")) eqn:Ho; simpl.
  - rewrite Hm. eexists; split; [reflexivity|]. reflexivity.
  - destruct Hs as [Hs | Hs]; [done|]. rewrite Hs. simpl. rewrite Hm.
    eexists; split; [reflexivity|]. reflexivity.
Qed.


(** * Further properties *)

(** ** The public view *)

Lemma toPublicProcInfo_unfold (o : Obj) :
  toPublicProcInfo o = if truthy (prop o "_proc") then delete "_proc" o else o.
Proof. unfold toPublicProcInfo, extend. by rewrite (right_id_L ∅ (∪)). Qed.

(** X1. The public view is idempotent, keeps every property other than
    [_proc], and is the record itself when [_proc] is missing or falsy. *)
Theorem toPublicProcInfo_idempotent (o : Obj) :
  toPublicProcInfo (toPublicProcInfo o) = toPublicProcInfo o /\
  (forall k, k ≠ "_proc" -> toPublicProcInfo o !! k = o !! k) /\
  (truthy (prop o "_proc") = false -> toPublicProcInfo o = o).
Proof.
  split_and!.
  - rewrite (toPublicProcInfo_unfold (toPublicProcInfo o)).
    by rewrite toPublicProcInfo_proc.
  - intros k Hk. by apply toPublicProcInfo_other.
  - intros H. by rewrite toPublicProcInfo_unfold, H.
Qed.

(** ** [kill] *)

Lemma set_trace_app t1 t2 w :
  set_trace (fun t => t ++ t2) (set_trace (fun t => t ++ t1) w) =
  set_trace (fun t => t ++ t1 ++ t2) w.
Proof. destruct w; unfold set_trace; simpl. by rewrite app_assoc. Qed.


Lemma findWhere_pid_free l p : pid_free p l -> findWhere l "pid" p = None.
Proof.
  induction 1 as [|x l Hx _ IH]; simpl; [done|].
  unfold pid_of in Hx. by rewrite Hx.
Qed.

Lemma findWhere_app_r l r p :
  pid_free p l -> strict_eq p (pid_of r) = true ->
  findWhere (l ++ [r]) "pid" p = Some r.
Proof.
  induction 1 as [|x l Hx _ IH]; simpl; intros Hr.
  - unfold pid_of in Hr. by rewrite Hr.
  - unfold pid_of in Hx. rewrite Hx. by apply IH.
Qed.


(** X3. Without a truthy [pid], [kill] is rejected with ['pid is required'];
    with a pid that no record of the registry carries, it is rejected with
    ['pid not found'].  No signal is sent in either case. *)
Theorem kill_unknown_pid (kopts : Obj) (w : World) :
  (truthy (prop kopts "pid") = false ->
   kill rt kopts w =
     (Return (Settled (Rejected (AError "pid is required"))),
      set_trace (fun t => t ++ [Debug "illigal kill call: pid missing!";
                                Settle (Rejected (AError "pid is required"))]) w)) /\
  (truthy (prop kopts "pid") = true ->
   pid_free (prop kopts "pid") (processes (this w)) ->
   kill rt kopts w =
     (Return (Settled (Rejected (AError "pid not found"))),
      set_trace (fun t => t ++ [Debug "illigal kill call: pid not found";
                                Settle (Rejected (AError "pid not found"))]) w)).
Proof.
  assert (prop (extend {[ "signal" := AStr "SIGTERM" ]} kopts) "pid" = prop kopts "pid") as Hp.
  { rewrite prop_extend. unfold prop. by destruct (kopts !! "pid"). }
  split.
  - intros H. unfold kill. unfold_monad. rewrite Hp, H. simpl.
    by rewrite set_trace_app.
  - intros H Hfree. unfold kill. unfold_monad. rewrite Hp, H. simpl.
    rewrite (findWhere_pid_free _ _ Hfree). simpl. by rewrite set_trace_app.
Qed.

(** ** [getProcesses] *)

Lemma Q_all_inr (views : list Obj) : Q_all (inr <$> views) = Fulfilled (RObjs views).
Proof. induction views as [|o l IH]; csimpl; [done|]. by rewrite IH. Qed.

Lemma Q_all_rejected l :
  (exists err, inl err ∈ l) -> exists err, Q_all l = Rejected err /\ inl err ∈ l.
Proof.
  induction l as [|[e|o] l IH]; intros [err Hin].
  - by apply elem_of_nil in Hin.
  - exists e. split; [done|]. apply list_elem_of_here.
  - apply elem_of_cons in Hin as [Hin|Hin]; [done|].
    destruct IH as (e & He & Hin'); [by exists err|].
    exists e. simpl. rewrite He. split; [done|]. by apply list_elem_of_further.
Qed.

(** X4. [getProcesses] is all or nothing.  When the usage lookup succeeds
    for the pid of every record, the promise is fulfilled with one entry
    per record, in registry order: the public view of the record with the
    usage result copied over it.  When the lookup fails for some record,
    the promise is rejected with the error of such a lookup.  Either way
    the agent only writes one debug line. *)
Theorem getProcesses_all_or_nothing (lookup : Atom -> Usage) (w : World) :
  snd (getProcesses lookup w) = set_trace (fun t => t ++ [Debug "getProcesses"]) w /\
  (forall results : list Obj,
     Forall2 (fun r res => lookup (pid_of r) = UsageOk res) (processes (this w)) results ->
     fst (getProcesses lookup w) =
       Return (Settled (Fulfilled (RObjs (zip_with usage_view (processes (this w)) results))))) /\
  (forall r err,
     r ∈ processes (this w) -> lookup (pid_of r) = UsageErr err ->
     exists r' err',
       r' ∈ processes (this w) /\ lookup (pid_of r') = UsageErr err' /\
       fst (getProcesses lookup w) = Return (Settled (Rejected err'))).
Proof.
  unfold getProcesses. unfold_monad. simpl. split_and!; [done| |].
  - intros results H. do 3 f_equal. rewrite <- Q_all_inr. f_equal.
    induction H as [|r res l ress Hr _ IH]; simpl; [done|].
    unfold getProcesses_entry at 1. unfold pid_of in Hr. rewrite Hr.
    by rewrite IH.
  - intros r err Hin Herr.
    destruct (Q_all_rejected (map (getProcesses_entry lookup) (processes (this w))))
      as (e & He & Hin').
    { exists err. apply list_elem_of_fmap. exists r. split; [|done].
      unfold getProcesses_entry. unfold pid_of in Herr. by rewrite Herr. }
    apply list_elem_of_fmap in Hin' as (r' & Heq & Hr').
    unfold getProcesses_entry in Heq.
    destruct (lookup (prop (fields r') "pid")) as [e'|res] eqn:E; [|done].
    injection Heq as <-. exists r', e. by rewrite He.
Qed.

(** ** The session *)

Lemma session_okb_spec n : session_okb n = true <-> session_consistent n.
Proof.
  unfold session_okb, session_consistent.
  destruct (mux n), (rpc n), (rawSocket n); split; try done;
    try (intros _; split; [split|]; intros [x ?]; try done; eauto);
    intros [[H1 H2] H3];
    try (destruct H1 as [? ?]; [by eexists|done]);
    try (destruct H2 as [? ?]; [by eexists|done]);
    try (destruct H3 as [? ?]; [by eexists|done]).
Qed.

Ltac solve_same_session :=
  intros; unfold same_session; handler_cases; repeat split; done.

Ltac solve_quiet :=
  intros; unfold quiet; handler_cases; (split; [done|]);
  rewrite <- ?app_assoc;
  first [ by (exists []; rewrite app_nil_r)
        | eexists; split; reflexivity ].

Ltac solve_session :=
  let H := fresh in
  intros H; unfold session_okb in *; handler_cases.

Lemma getInfo_session facts w : same_session w (snd (getInfo facts w)).
Proof. unfold getInfo. solve_same_session. Qed.
Lemma getProcesses_session lookup w : same_session w (snd (getProcesses lookup w)).
Proof. unfold getProcesses. solve_same_session. Qed.
Lemma kill_session opts w : same_session w (snd (kill rt opts w)).
Proof. unfold kill. solve_same_session. Qed.
Lemma call_on_reply_session c data rTime w : same_session w (snd (call_on_reply c data rTime w)).
Proof. unfold call_on_reply. solve_same_session. Qed.
Lemma call_on_failure_session c err w : same_session w (snd (call_on_failure c err w)).
Proof. unfold call_on_failure. solve_same_session. Qed.
Lemma proc_on_error_session proc err w : same_session w (snd (proc_on_error proc err w)).
Proof. unfold proc_on_error. solve_same_session. Qed.
Lemma proc_on_close_session proc code w : same_session w (snd (proc_on_close proc code w)).
Proof. unfold proc_on_close. solve_same_session. Qed.
Lemma proc_on_tick_session proc w : same_session w (snd (proc_on_tick proc w)).
Proof. unfold proc_on_tick. solve_same_session. Qed.
Lemma stream_on_error_session s err w : same_session w (snd (stream_on_error s err w)).
Proof. unfold stream_on_error. solve_same_session. Qed.

Lemma getInfo_quiet facts w : quiet w (snd (getInfo facts w)).
Proof. unfold getInfo. solve_quiet. Qed.
Lemma getProcesses_quiet lookup w : quiet w (snd (getProcesses lookup w)).
Proof. unfold getProcesses. solve_quiet. Qed.
Lemma socket_on_connect_quiet sock w : quiet w (snd (socket_on_connect sock w)).
Proof.
  unfold socket_on_connect, settle_connect, _onRawSocketConnection, reconnect_log.
  solve_quiet.
Qed.
Lemma socket_on_error_quiet sock err w : quiet w (snd (socket_on_error sock err w)).
Proof. unfold socket_on_error, settle_connect, reconnect_log. solve_quiet. Qed.
Lemma socket_on_close_quiet sock w : quiet w (snd (socket_on_close sock w)).
Proof. unfold socket_on_close, _onRawSocketClose. solve_quiet. Qed.
Lemma mux_on_error_quiet m err w : quiet w (snd (mux_on_error m err w)).
Proof. unfold mux_on_error, _onMuxError. solve_quiet. Qed.
Lemma call_on_reply_quiet c data rTime w : quiet w (snd (call_on_reply c data rTime w)).
Proof. unfold call_on_reply. solve_quiet. Qed.
Lemma call_on_failure_quiet c err w : quiet w (snd (call_on_failure c err w)).
Proof. unfold call_on_failure. solve_quiet. Qed.
Lemma proc_on_error_quiet proc err w : quiet w (snd (proc_on_error proc err w)).
Proof. unfold proc_on_error. solve_quiet. Qed.
Lemma proc_on_close_quiet proc code w : quiet w (snd (proc_on_close proc code w)).
Proof. unfold proc_on_close. solve_quiet. Qed.
Lemma proc_on_tick_quiet proc w : quiet w (snd (proc_on_tick proc w)).
Proof. unfold proc_on_tick. solve_quiet. Qed.
Lemma stream_on_error_quiet s err w : quiet w (snd (stream_on_error s err w)).
Proof. unfold stream_on_error. solve_quiet. Qed.

Lemma connect_session_ok opts w :
  session_okb (this w) = true -> session_okb (this (snd (connect rt opts w))) = true.
Proof. unfold connect. solve_session. Qed.
Lemma socket_on_connect_session_ok sock w :
  session_okb (this w) = true -> session_okb (this (snd (socket_on_connect sock w))) = true.
Proof.
  unfold socket_on_connect, settle_connect, _onRawSocketConnection, reconnect_log.
  solve_session.
Qed.
Lemma socket_on_error_session_ok sock err w :
  session_okb (this w) = true -> session_okb (this (snd (socket_on_error sock err w))) = true.
Proof. unfold socket_on_error, settle_connect, reconnect_log. solve_session. Qed.
Lemma socket_on_close_session_ok sock w :
  session_okb (this w) = true -> session_okb (this (snd (socket_on_close sock w))) = true.
Proof. unfold socket_on_close, _onRawSocketClose. solve_session. Qed.
Lemma mux_on_error_session_ok m err w :
  session_okb (this w) = true -> session_okb (this (snd (mux_on_error m err w))) = true.
Proof. unfold mux_on_error, _onMuxError. solve_session. Qed.
Lemma _onPingInterval_session_ok time w :
  session_okb (this w) = true -> session_okb (this (snd (_onPingInterval rt time w))) = true.
Proof. unfold _onPingInterval, connect, reconnect_log. solve_session. Qed.

Lemma same_session_okb w w' :
  same_session w w' -> session_okb (this w) = true -> session_okb (this w') = true.
Proof. intros (H1 & H2 & H3). unfold session_okb. by rewrite H1, H2, H3. Qed.

Lemma timers_app t1 t2 : timers (t1 ++ t2) = (timers t1 + timers t2)%nat.
Proof. unfold timers. by rewrite List.filter_app, length_app. Qed.

Lemma timers_quiet t : forallb quiet_effect t = true -> timers t = 0%nat.
Proof.
  induction t as [|e t IH]; simpl; [done|].
  intros [He Ht]%andb_true_iff. unfold timers in *. simpl.
  unfold quiet_effect in He. destruct (is_SetInterval e); [done|]. by apply IH.
Qed.

Lemma quiet_timer_inv w w' : quiet w w' -> timer_inv w -> timer_inv w'.
Proof.
  intros (Hp & t & Ht & Hq) H. unfold timer_inv in *.
  by rewrite Hp, Ht, timers_app, (timers_quiet _ Hq), Nat.add_0_r.
Qed.


Ltac solve_timer_inv :=
  let H := fresh in
  intros H; unfold timer_inv in *;
  unfold_monad; simpl;
  destruct (pingInterval (this _)) eqn:?; simpl in *;
  repeat (case_match; simplify_eq/=; try done);
  repeat match goal with
         | E : pingInterval (this ?w) = _, E' : context [isSome (pingInterval (this ?w))] |- _ =>
             rewrite E in E'; simpl in E'
         end;
  try done;
  rewrite ?timers_app in *; unfold timers in *; simpl in *; lia.

Lemma connect_timer_inv opts w : timer_inv w -> timer_inv (snd (connect rt opts w)).
Proof. unfold connect. solve_timer_inv. Qed.

Lemma _onPingInterval_timer_inv time w : timer_inv w -> timer_inv (snd (_onPingInterval rt time w)).
Proof. unfold _onPingInterval, connect, reconnect_log. solve_timer_inv. Qed.

Lemma kill_timer_inv opts w : timer_inv w -> timer_inv (snd (kill rt opts w)).
Proof. unfold kill. solve_timer_inv. Qed.




Lemma connect_keeps_timer opts w :
  is_Some (pingInterval (this w)) ->
  pingInterval (this (snd (connect rt opts w))) = pingInterval (this w).
Proof.
  intros [t Ht]. unfold connect. unfold_monad. simpl. rewrite Ht. simpl.
  repeat (case_match; simplify_eq/=; try done).
Qed.

Lemma _onPingInterval_keeps_timer time w :
  is_Some (pingInterval (this w)) ->
  pingInterval (this (snd (_onPingInterval rt time w))) = pingInterval (this w).
Proof.
  intros [t Ht]. unfold _onPingInterval, connect, reconnect_log.
  unfold_monad. simpl. rewrite ?Ht. simpl.
  repeat (case_match; simplify_eq/=; rewrite ?Ht in *; simpl in *; try done).
Qed.

Lemma kill_keeps_timer opts w :
  pingInterval (this (snd (kill rt opts w))) = pingInterval (this w).
Proof. unfold kill. handler_cases. Qed.


Lemma spawn_session opts launch w : same_session w (snd (spawn rt opts launch w)).
Proof.
  unfold spawn, pipe_std. fold (spawn_opts opts).
  rewrite spawn_name_outcome.
  set (name := spawn_name rt opts). clearbody name.
  solve_same_session.
Qed.

Lemma spawn_quiet opts launch w : quiet w (snd (spawn rt opts launch w)).
Proof.
  unfold spawn, pipe_std. fold (spawn_opts opts).
  rewrite spawn_name_outcome.
  set (name := spawn_name rt opts). clearbody name.
  solve_quiet.
Qed.

Lemma tick_session proc w : same_session w (snd (handle rt (EvNextTick proc) w)).
Proof. unfold handle, proc_on_tick. solve_same_session. Qed.

Lemma tick_quiet proc w : quiet w (snd (handle rt (EvNextTick proc) w)).
Proof. unfold handle, proc_on_tick. solve_quiet. Qed.

Lemma step_session_ok w e :
  session_okb (this w) = true -> session_okb (this (step rt w e)) = true.
Proof.
  unfold step. destruct e; unfold handle; rewrite ?snd_ignore.
  - apply connect_session_ok.
  - apply same_session_okb, getInfo_session.
  - apply same_session_okb, getProcesses_session.
  - apply same_session_okb, spawn_session.
  - apply same_session_okb, kill_session.
  - apply socket_on_connect_session_ok.
  - apply socket_on_error_session_ok.
  - apply socket_on_close_session_ok.
  - apply mux_on_error_session_ok.
  - apply _onPingInterval_session_ok.
  - apply same_session_okb, call_on_reply_session.
  - apply same_session_okb, call_on_failure_session.
  - apply same_session_okb, proc_on_error_session.
  - apply same_session_okb, proc_on_close_session.
  - apply same_session_okb, (tick_session proc w).
  - apply same_session_okb, stream_on_error_session.
Qed.

Lemma reachable_session_okb (opts : Obj) (pid : Z) (w : World) :
  reachable rt opts pid w -> session_okb (this w) = true.
Proof.
  intros H. induction H as [|w e _ IH]; [done|]. by apply step_session_ok.
Qed.

(** X5. In every reachable state the session is whole or absent: the
    multiplexer and the RPC channel are set together (by the connect
    listener) and cleared together (by socket close or multiplexer error),
    and they exist only while [rawSocket] is set. *)
Theorem session_always_consistent (opts : Obj) (pid : Z) (w : World) :
  reachable rt opts pid w -> session_consistent (this w).
Proof. intros H. by eapply session_okb_spec, reachable_session_okb. Qed.

Lemma step_quiet_cases w e :
  quiet w (step rt w e) \/
  (exists opts, e = EvConnect opts) \/ (exists opts, e = EvKill opts) \/
  (exists time, e = EvPingInterval time).
Proof.
  unfold step. destruct e; eauto;
    left; try apply tick_quiet; unfold handle; rewrite ?snd_ignore.
  - apply getInfo_quiet.
  - apply getProcesses_quiet.
  - apply spawn_quiet.
  - apply socket_on_connect_quiet.
  - apply socket_on_error_quiet.
  - apply socket_on_close_quiet.
  - apply mux_on_error_quiet.
  - apply call_on_reply_quiet.
  - apply call_on_failure_quiet.
  - apply proc_on_error_quiet.
  - apply proc_on_close_quiet.
  - apply stream_on_error_quiet.
Qed.

Lemma step_timer_inv w e : timer_inv w -> timer_inv (step rt w e).
Proof.
  intros H. destruct (step_quiet_cases w e) as [Hq|[[o ->]|[[o ->]|[t ->]]]].
  - by eapply quiet_timer_inv.
  - unfold step, handle. rewrite snd_ignore. by apply connect_timer_inv.
  - unfold step, handle. rewrite snd_ignore. by apply kill_timer_inv.
  - unfold step, handle. by apply _onPingInterval_timer_inv.
Qed.

Lemma step_keeps_timer w e :
  is_Some (pingInterval (this w)) ->
  pingInterval (this (step rt w e)) = pingInterval (this w).
Proof.
  intros H. destruct (step_quiet_cases w e) as [Hq|[[o ->]|[[o ->]|[t ->]]]].
  - by destruct Hq.
  - unfold step, handle. rewrite snd_ignore. by apply connect_keeps_timer.
  - unfold step, handle. rewrite snd_ignore. by apply kill_keeps_timer.
  - unfold step, handle. by apply _onPingInterval_keeps_timer.
Qed.

(** X6. The heartbeat timer is set at most once, whatever the number of
    connects and reconnects: in every reachable state the trace holds one
    [setInterval] if [pingInterval] is set and none otherwise, and no
    event clears [pingInterval] once it is set. *)
Theorem heartbeat_timer_once (opts : Obj) (pid : Z) (w : World) :
  reachable rt opts pid w ->
  timers (trace w) = (if isSome (pingInterval (this w)) then 1%nat else 0%nat) /\
  (forall e, is_Some (pingInterval (this w)) ->
             pingInterval (this (step rt w e)) = pingInterval (this w)).
Proof.
  intros H. split; [|intros e; apply step_keeps_timer].
  induction H as [|w e _ IH]; [done|]. by apply step_timer_inv.
Qed.






(** X8. [connect] on an agent with no socket and no RPC channel.  When
    [net.createConnection] refuses the port or the host, its exception
    escapes [connect] and nothing has changed: no socket, no timer.
    Otherwise [connect] opens one socket to [serverPort], [serverHost],
    sets the heartbeat timer unless one exists or [ping] is falsy, and
    hands back a pending promise.  When that socket connects, the promise
    is fulfilled and the session is established on it.  When it reports an
    error instead, the promise is rejected with that error and no session
    is established, but [rawSocket] stays set. *)
Theorem connect_establishes_session (opts0 : Obj) (pid : Z) (w : World) (opts : Obj) (msg : string) :
  reachable rt opts0 pid w ->
  rawSocket (this w) = None ->
  rpc (this w) = None ->
  (forall err,
     createConnection_error rt (serverPort (this w)) (serverHost (this w)) = Some err ->
     connect rt opts w = (Throw err, w)) /\
  (createConnection_error rt (serverPort (this w)) (serverHost (this w)) = None ->
   let copts := extend {[ "ping" := ABool true; "pingInterval" := ANum 30000 ]} opts in
   let sock := fresh w in
   let w1 := snd (connect rt opts w) in
   let w2 := step rt w1 (EvSocketConnect sock) in
   let w2' := step rt w1 (EvSocketError sock msg) in
   fst (connect rt opts w) = Return (OfSocket sock) /\
   trace w1 = trace w ++
     CreateConnection (serverPort (this w)) (serverHost (this w)) sock ::
     (if negb (isSome (pingInterval (this w))) && truthy (prop copts "ping")
      then [SetInterval (prop copts "pingInterval") (S sock)] else []) /\
   (rawSocket (this w1), mux (this w1), rpc (this w1)) = (Some sock, None, None) /\
   s_deferred <$> sockets w1 !! sock = Some Pending /\
   (exists m r, (rawSocket (this w2), mux (this w2), rpc (this w2)) = (Some sock, Some m, Some r) /\
                m ≠ r /\ muxes w2 !! m = Some true) /\
   s_deferred <$> sockets w2 !! sock = Some (Fulfilled (RAtom AUndefined)) /\
   (rawSocket (this w2'), mux (this w2'), rpc (this w2')) = (Some sock, None, None) /\
   s_deferred <$> sockets w2' !! sock = Some (Rejected (AError msg))).
Proof.
  intros Hr Hs Hrpc. split.
  { intros err He. unfold connect. unfold_monad. simpl.
    by rewrite Hs, Hrpc, He. }
  intros Hok copts sock w1 w2 w2'.
  assert (mux (this w) = None) as Hmux.
  { pose proof (reachable_session_okb _ _ _ Hr) as Hokb.
    unfold session_okb in Hokb. rewrite Hrpc in Hokb.
    by destruct (mux (this w)). }
  unfold w2, w2', w1, step, handle, socket_on_connect, socket_on_error,
    settle_connect, _onRawSocketConnection, connect.
  fold copts. unfold_monad. simpl. rewrite Hs, Hrpc, Hmux. simpl.
  rewrite Hok.
  destruct (negb (isSome (pingInterval (this w))) && truthy (prop copts "ping")) eqn:Hping;
    simpl; repeat (rewrite lookup_insert_eq; simpl);
    rewrite <- ?app_assoc; simpl;
    (split_and!; try done; do 2 eexists; split_and!; try done; try lia;
     by rewrite lookup_insert_eq).
Qed.

Lemma ping_with_rpc (time : Z) (w : World) (r : nat) :
  rpc (this w) = Some r ->
  snd (_onPingInterval rt time w) =
    set_calls (fun cs => <[fresh w := CallLoop time]> cs)
      (set_trace (fun t => t ++ [RpcCall r "loop" {[ "time" := ANum time ]} (fresh w)])
         (set_fresh S w)).
Proof. intros Hr. unfold _onPingInterval. unfold_monad. simpl. by rewrite Hr. Qed.

(** X9. What a tick of the heartbeat timer does.  With an RPC channel it
    sends one ['loop'] call carrying the time and nothing else.  With
    neither channel nor socket it logs and reconnects: one new socket is
    opened, whose promise carries the reconnect handlers -- or, when
    [net.createConnection] refuses the port or the host, its exception
    escapes the callback after the log line.  With a socket but no channel
    (a connection in progress, or failed and not closed yet) it opens
    nothing, and logs ['reconnect successful'], because [connect] answers
    with a fulfilled promise. *)
Theorem ping_interval_cases (time : Z) (w : World) :
  (forall r, rpc (this w) = Some r ->
     snd (_onPingInterval rt time w) =
       set_calls (fun cs => <[fresh w := CallLoop time]> cs)
         (set_trace (fun t => t ++ [RpcCall r "loop" {[ "time" := ANum time ]} (fresh w)])
            (set_fresh S w))) /\
  (rpc (this w) = None -> rawSocket (this w) = None ->
     createConnection_error rt (serverPort (this w)) (serverHost (this w)) = None ->
     let w' := snd (_onPingInterval rt time w) in
     (exists timer,
        trace w' = trace w ++
          Debug "ping interval has no rpc ... reconnecting now" ::
          CreateConnection (serverPort (this w)) (serverHost (this w)) (fresh w) :: timer /\
        timer = if isSome (pingInterval (this w)) then []
                else [SetInterval (ANum 30000) (S (fresh w))]) /\
     rawSocket (this w') = Some (fresh w) /\
     sockets w' !! fresh w =
       Some {| s_deferred := Pending; s_connect := true; s_error := true;
               s_close := true; s_reconnect := true |}) /\
  (forall err, rpc (this w) = None -> rawSocket (this w) = None ->
     createConnection_error rt (serverPort (this w)) (serverHost (this w)) = Some err ->
     _onPingInterval rt time w =
       (Throw err,
        set_trace (fun t => t ++ [Debug "ping interval has no rpc ... reconnecting now"]) w)) /\
  (forall s, rpc (this w) = None -> rawSocket (this w) = Some s ->
     snd (_onPingInterval rt time w) =
       set_trace (fun t => t ++ [Debug "ping interval has no rpc ... reconnecting now";
                                 Debug "reconnect successful"]) w).
Proof.
  assert (truthy (prop (extend {[ "ping" := ABool true; "pingInterval" := ANum 30000 ]} ∅)
                       "ping") = true) as Hp by reflexivity.
  assert (prop (extend {[ "ping" := ABool true; "pingInterval" := ANum 30000 ]} ∅)
               "pingInterval" = ANum 30000) as Hi by reflexivity.
  unfold _onPingInterval, connect, reconnect_log. unfold_monad. simpl.
  rewrite Hp, Hi. split_and!.
  - intros r Hr. by rewrite Hr.
  - intros Hr Hs Hok. rewrite Hr. simpl. rewrite Hr, Hs. simpl. rewrite Hok.
    destruct (isSome (pingInterval (this w))); simpl;
      rewrite <- ?app_assoc, ?lookup_alter_eq, ?lookup_insert_eq; simpl;
      (split_and!; [eexists; split; reflexivity|done|done]).
  - intros err Hr Hs He. rewrite Hr. simpl. by rewrite Hr, Hs, He.
  - intros s Hr Hs. rewrite Hr. simpl. rewrite Hr, Hs. simpl.
    by rewrite set_trace_app.
Qed.

(** X11. Teardown.  The close event of a socket the agent opened (its
    close listener fires once), like the first error of a multiplexer,
    clears [rawSocket], [mux] and [rpc] together -- whether or not that
    socket or multiplexer belongs to the current session -- and logs one
    line; the registry and the child listeners are untouched.  A second
    close event of the same socket changes nothing. *)
Theorem teardown_clears_session (w : World) :
  (forall s k,
     sockets w !! s = Some k -> s_close k = true ->
     let w' := step rt w (EvSocketClose s) in
     this w' = set_session None None None (this w) /\
     trace w' = trace w ++ [Debug "lost connection to server"] /\
     children w' = children w /\
     step rt w' (EvSocketClose s) = w') /\
  (forall m msg,
     muxes w !! m = Some true ->
     let w' := step rt w (EvMuxError m msg) in
     this w' = set_session None None None (this w) /\
     trace w' = trace w ++ [Debug ("mux error: " +:+ msg)] /\
     children w' = children w /\
     step rt w' (EvMuxError m msg) = w').
Proof.
  split.
  - intros s k Hs Hk w'. unfold w', step, handle, socket_on_close, _onRawSocketClose.
    unfold_monad. simpl. rewrite Hs, Hk. simpl. rewrite lookup_insert_eq. simpl.
    done.
  - intros m msg Hm w'. unfold w', step, handle, mux_on_error, _onMuxError.
    unfold_monad. simpl. rewrite Hm. simpl. rewrite lookup_insert_eq. done.
Qed.


(** ** The life of a child *)


Lemma step_registry_owned pid w e :
  Inv pid w -> registry_owned pid w -> registry_owned pid (step rt w e).
Proof.
  intros HI Ho.
  assert (forall w', same_registry w w' -> registry_owned pid w') as Hsame.
  { intros w' (Hp & Hc & _) r. rewrite Hp, Hc. apply Ho. }
  unfold step. destruct e; unfold handle; rewrite ?snd_ignore.
  - apply Hsame, connect_same.
  - apply Hsame, getInfo_same.
  - apply Hsame, getProcesses_same.
  - destruct (spawn_cases opts launch w)
      as [Hs | (pid' & c & _ & _ & _ & Hp & Hcs & _ & Hr)]; [by apply Hsame|].
    intros r. rewrite Hp, Hcs. intros [Hin|Hin]%elem_of_app.
    + destruct (Ho r Hin) as [->|(p & d & Hd & <-)]; [by left|right].
      exists p, d. split; [|done].
      destruct (inv_children pid w HI p d Hd) as [Hlt _].
      rewrite lookup_insert_ne by lia. done.
    + apply list_elem_of_singleton in Hin as ->. right.
      exists (fresh w), c. by rewrite lookup_insert_eq.
  - apply Hsame, kill_same.
  - apply Hsame, socket_on_connect_same.
  - apply Hsame, socket_on_error_same.
  - apply Hsame, socket_on_close_same.
  - apply Hsame, mux_on_error_same.
  - apply Hsame, _onPingInterval_same.
  - apply Hsame, call_on_reply_same.
  - apply Hsame, call_on_failure_same.
  - destruct (children w !! proc) as [c0|] eqn:Hc0.
    + rewrite (proc_on_error_spec _ _ _ _ Hc0). intros r Hin. simpl in *.
      destruct (Ho r Hin) as [->|(p & d & Hd & <-)]; [by left|right].
      destruct (decide (p = proc)) as [->|Hne].
      * eexists proc, _. rewrite lookup_insert_eq. split; [done|].
        simpl. congruence.
      * exists p, d. by rewrite lookup_insert_ne.
    + by rewrite (proc_on_error_none _ _ _ Hc0).
  - destruct (children w !! proc) as [c0|] eqn:Hc0.
    + destruct (proc_on_close_spec proc code w c0 Hc0) as (Hp & _ & Hcs & _).
      intros r. rewrite Hp, Hcs. intros Hin.
      assert (r ∈ processes (this w)) as Hin'.
      { destruct (indexOf _ _); [by eapply list_elem_of_delete_inv|done]. }
      destruct (Ho r Hin') as [->|(p & d & Hd & <-)]; [by left|right].
      destruct (decide (p = proc)) as [->|Hne].
      * eexists proc, _. rewrite lookup_insert_eq. split; [done|].
        simpl. congruence.
      * exists p, d. by rewrite lookup_insert_ne.
    + by rewrite (proc_on_close_none _ _ _ Hc0).
  - apply Hsame. unfold proc_on_tick. solve_same_registry.
  - apply Hsame, stream_on_error_same.
Qed.

(** X12. Every record has an owner: in every reachable state each record
    of the registry other than the agent's own is the record captured by
    the listeners of a launched child (whose close listener will remove
    it), and no record is listed twice. *)
Theorem registry_records_owned (opts : Obj) (pid : Z) (w : World) :
  reachable rt opts pid w ->
  NoDup (registry w) /\
  forall r, r ∈ processes (this w) ->
    r = self_record pid \/
    exists p c, children w !! p = Some c /\ c_procInfo c = r /\ addr r = S p.
Proof.
  intros Hr. pose proof (Inv_reachable _ _ _ Hr) as HI.
  split; [apply (inv_nodup pid w HI)|].
  assert (registry_owned pid w) as Ho.
  { clear HI. induction Hr as [|w e Hr IH].
    - intros r [->|Hin]%elem_of_cons; [by left|]. by apply elem_of_nil in Hin.
    - apply step_registry_owned; [by eapply Inv_reachable|done]. }
  intros r Hin. destruct (Ho r Hin) as [->|(p & c & Hc & <-)]; [by left|right].
  exists p, c. split_and!; try done.
  by destruct (inv_children pid w HI p c Hc) as (_ & _ & Ha & _).
Qed.

Lemma spawn_creation_returns (opts : Obj) (pid : Atom) (w : World) :
  truthy (prop opts "command") = true ->
  spawn_named opts = true ->
  prop (spawn_opts opts) "promise" = AStr "creation" ->
  fst (spawn rt opts (Launched pid) w) = Return (OfChild (fresh w)) /\
  ticks (snd (spawn rt opts (Launched pid) w)) = ticks w.
Proof.
  intros Hc Hnamed Hp. unfold spawn. fold (spawn_opts opts).
  rewrite spawn_name_outcome, Hnamed.
  rewrite !(spawn_opts_other opts "command") by done.
  rewrite Hc, Hp. simpl. unfold_monad. simpl. by rewrite lookup_insert_eq.
Qed.

(** X13. A [spawn] in creation mode (the default) whose process is
    launched hands back the promise of the child already fulfilled with
    the public view of the new record, which is in the registry; no
    created-notification is scheduled.  Nothing that happens later changes
    that promise: not the errors of the process, and not its close event,
    whatever the exit code. *)
Theorem spawn_creation_fulfilled
    (opts0 : Obj) (pid0 : Z) (w : World)
    (opts : Obj) (pid : Atom) (es : list Event) (code : Atom) :
  reachable rt opts0 pid0 w ->
  truthy (prop opts "command") = true ->
  spawn_named opts = true ->
  prop (spawn_opts opts) "promise" = AStr "creation" ->
  no_close (fresh w) es = true ->
  let proc := fresh w in
  let record := spawn_procInfo rt opts pid proc in
  let view := toPublicProcInfo (fields record) in
  let w1 := step rt w (EvSpawn opts (Launched pid)) in
  let w2 := run rt w1 es in
  let w3 := step rt w2 (EvProcClose proc code) in
  fst (spawn rt opts (Launched pid) w) = Return (OfChild proc) /\
  deferred_of w1 proc = Some (Fulfilled (RObj view)) /\
  (view !! "_proc" = None /\ forall k, k ≠ "_proc" -> view !! k = fields record !! k) /\
  (addr record ∈ registry w1) /\
  ticks w1 = ticks w /\
  deferred_of w2 proc = Some (Fulfilled (RObj view)) /\
  deferred_of w3 proc = Some (Fulfilled (RObj view)).
Proof.
  intros Hr Hc Hnamed Hp Hn proc record view w1 w2 w3.
  pose proof (Inv_reachable _ _ _ Hr) as HI.
  destruct (spawn_creation_returns opts pid w Hc Hnamed Hp) as [Hret Hticks].
  destruct (spawn_launched opts pid w Hc) as
    (c & Hps & Hcs & Hf & Hname & Hinfo & Hprom & _ & Herr & Hd & _).
  { rewrite Hp. by apply contains_modes; left. }
  { exact Hnamed. }
  rewrite Hp, strict_eq_str in Hd. rewrite Hp in Hprom.
  assert (Inv pid0 w1) as HI1 by (by apply Inv_step).
  assert (children w1 !! proc = Some c) as Hc1.
  { unfold w1, step, handle. rewrite snd_ignore, Hcs. apply lookup_insert_eq. }
  assert (S proc ∈ registry w1) as Hin1.
  { unfold registry, w1, step, handle. rewrite snd_ignore, Hps, fmap_app.
    apply elem_of_app. right. by apply list_elem_of_singleton. }
  destruct (run_keeps_child pid0 es w1 proc c HI1 Hc1 Herr Hn Hin1)
    as (Hc2 & _ & _).
  fold w2 in Hc2.
  destruct (proc_on_close_spec proc code w2 _ Hc2) as (_ & _ & Hcs3 & _).
  change (snd (proc_on_close proc code w2)) with w3 in Hcs3.
  assert (deferred_of w1 proc = Some (Fulfilled (RObj view))) as G1.
  { unfold deferred_of. rewrite Hc1. simpl. by rewrite Hd. }
  assert (view !! "_proc" = None) as G2.
  { by apply (toPublicProcInfo_handle _ proc). }
  assert (forall k, k ≠ "_proc" -> view !! k = fields record !! k) as G3.
  { intros k Hk. by apply toPublicProcInfo_other. }
  assert (ticks w1 = ticks w) as G4.
  { unfold w1, step, handle. by rewrite snd_ignore. }
  assert (deferred_of w2 proc = Some (Fulfilled (RObj view))) as G5.
  { unfold deferred_of. rewrite Hc2. simpl. by rewrite Hd. }
  assert (deferred_of w3 proc = Some (Fulfilled (RObj view))) as G6.
  { unfold deferred_of. rewrite Hcs3, lookup_insert_eq. simpl.
    unfold close_deferred. simpl. rewrite Hprom.
    rewrite (strict_eq_ne (AStr "creation") (AStr "execution")) by done.
    by rewrite Hd. }
  by split_and!.
Qed.

Lemma spawn_procInfo_pid opts pid proc :
  pid_of (spawn_procInfo rt opts pid proc) = pid.
Proof. reflexivity. Qed.

Lemma spawn_procInfo_protected opts pid proc :
  prop (fields (spawn_procInfo rt opts pid proc)) "protected" = AUndefined.
Proof. reflexivity. Qed.

Lemma spawn_procInfo_proc opts pid proc :
  prop (fields (spawn_procInfo rt opts pid proc)) "_proc" = AHandle proc.
Proof. reflexivity. Qed.

(** X14. A launched child can be signalled at once and not after its exit:
    when [spawn] has launched a process whose (non-zero) pid no other
    record carries, a [kill] with that pid and a signal the process object
    accepts, right after the push, signals the new process object and is
    fulfilled with the public view of its record; after the close event of
    the process the same [kill], whatever its signal, is rejected with
    ['pid not found'] and sends nothing. *)
Theorem spawn_then_kill
    (opts0 : Obj) (pid0 : Z) (w : World)
    (opts : Obj) (p : Z) (kopts : Obj) (code : Atom) :
  reachable rt opts0 pid0 w ->
  truthy (prop opts "command") = true ->
  contains [AStr "creation"; AStr "execution"] (prop (spawn_opts opts) "promise") = true ->
  spawn_named opts = true ->
  p ≠ 0 ->
  pid_free (ANum p) (processes (this w)) ->
  kopts !! "pid" = Some (ANum p) ->
  let proc := fresh w in
  let record := spawn_procInfo rt opts (ANum p) proc in
  let view := toPublicProcInfo (fields record) in
  let w1 := step rt w (EvSpawn opts (Launched (ANum p))) in
  let w3 := step rt w1 (EvProcClose proc code) in
  (kill_error rt (AHandle proc) (default (AStr "SIGTERM") (kopts !! "signal")) = None ->
   kill rt kopts w1 =
     (Return (Settled (Fulfilled (RObj view))),
      set_trace (fun t => t ++
        [ProcKill (AHandle proc) (default (AStr "SIGTERM") (kopts !! "signal"));
         Settle (Fulfilled (RObj view))]) w1)) /\
  kill rt kopts w3 =
    (Return (Settled (Rejected (AError "pid not found"))),
     set_trace (fun t => t ++ [Debug "illigal kill call: pid not found";
                               Settle (Rejected (AError "pid not found"))]) w3).
Proof.
  intros Hr Hc Hp Hnamed Hp0 Hfree Hk proc record view w1 w3.
  pose proof (Inv_reachable _ _ _ Hr) as HI.
  destruct (spawn_launched opts (ANum p) w Hc Hp Hnamed) as
    (c & Hps & Hcs & Hf & _ & Hinfo & _).
  assert (w1 = snd (spawn rt opts (Launched (ANum p)) w)) as Hw1.
  { unfold w1, step, handle. by rewrite snd_ignore. }
  rewrite <- Hw1 in Hps, Hcs.
  assert (prop (extend {[ "signal" := AStr "SIGTERM" ]} kopts) "pid" = ANum p) as Hpid.
  { by apply prop_extend_l. }
  assert (prop (extend {[ "signal" := AStr "SIGTERM" ]} kopts) "signal" =
          default (AStr "SIGTERM") (kopts !! "signal")) as Hsig.
  { rewrite prop_extend. by destruct (kopts !! "signal"). }
  assert (truthy (ANum p) = true) as Htr.
  { simpl. apply negb_true_iff. lia. }
  split.
  - intros Hok. unfold proc in Hok.
    unfold kill. unfold_monad. rewrite Hpid, Hsig, Htr. simpl.
    rewrite Hps, (findWhere_app_r _ (spawn_procInfo rt opts (ANum p) (fresh w)) _ Hfree)
      by (rewrite spawn_procInfo_pid; apply strict_eq_num).
    cbv beta iota. rewrite spawn_procInfo_protected, spawn_procInfo_proc.
    simpl. rewrite Hok. by rewrite set_trace_app.
  - assert (Inv pid0 w1) as HI1 by (by apply Inv_step).
    assert (children w1 !! proc = Some c) as Hc1.
    { rewrite Hcs. apply lookup_insert_eq. }
    destruct (proc_on_close_spec proc code w1 c Hc1) as (Hps3 & _).
    change (snd (proc_on_close proc code w1)) with w3 in Hps3.
    assert (pid_free (ANum p) (processes (this w3))) as Hfree3.
    { apply Forall_forall. intros r Hin. rewrite Hps3 in Hin.
      destruct (indexOf (processes (this w1)) (c_procInfo c)) as [i|] eqn:Hi.
      - apply indexOf_Some in Hi as (x & Hx & Hax).
        assert (addr r ∈ delete i (registry w1)) as Ha.
        { unfold registry. rewrite <- list_fmap_delete.
          apply list_elem_of_fmap. by exists r. }
        assert (addr x ∉ delete i (registry w1)) as Hna.
        { apply NoDup_delete_notin; [apply (inv_nodup pid0 w1 HI1)|].
          unfold registry. by rewrite list_lookup_fmap, Hx. }
        apply list_elem_of_delete_inv in Hin. rewrite Hps in Hin.
        apply elem_of_app in Hin as [Hin|Hin].
        + eapply Forall_forall in Hfree; [exact Hfree|exact Hin].
        + apply list_elem_of_singleton in Hin as ->.
          rewrite Hax, Hinfo in Hna. done.
      - apply indexOf_None in Hi. exfalso. apply Hi. rewrite Hinfo, Hps, fmap_app.
        apply elem_of_app. right. by apply list_elem_of_singleton. }
    unfold kill. unfold_monad. rewrite Hpid, Htr. simpl.
    rewrite (findWhere_pid_free _ _ Hfree3). simpl. by rewrite set_trace_app.
Qed.


(** ** Notifications and output streams *)

Ltac solve_same_ticks := intros; unfold same_ticks; handler_cases; try done.

Lemma connect_ticks opts w : same_ticks w (snd (connect rt opts w)).
Proof. unfold connect. solve_same_ticks. Qed.
Lemma getInfo_ticks facts w : same_ticks w (snd (getInfo facts w)).
Proof. unfold getInfo. solve_same_ticks. Qed.
Lemma getProcesses_ticks lookup w : same_ticks w (snd (getProcesses lookup w)).
Proof. unfold getProcesses. solve_same_ticks. Qed.
Lemma kill_ticks opts w : same_ticks w (snd (kill rt opts w)).
Proof. unfold kill. solve_same_ticks. Qed.
Lemma socket_on_connect_ticks sock w : same_ticks w (snd (socket_on_connect sock w)).
Proof.
  unfold socket_on_connect, settle_connect, _onRawSocketConnection, reconnect_log.
  solve_same_ticks.
Qed.
Lemma socket_on_error_ticks sock err w : same_ticks w (snd (socket_on_error sock err w)).
Proof. unfold socket_on_error, settle_connect, reconnect_log. solve_same_ticks. Qed.
Lemma socket_on_close_ticks sock w : same_ticks w (snd (socket_on_close sock w)).
Proof. unfold socket_on_close, _onRawSocketClose. solve_same_ticks. Qed.
Lemma mux_on_error_ticks m err w : same_ticks w (snd (mux_on_error m err w)).
Proof. unfold mux_on_error, _onMuxError. solve_same_ticks. Qed.
Lemma _onPingInterval_ticks time w : same_ticks w (snd (_onPingInterval rt time w)).
Proof. unfold _onPingInterval, connect, reconnect_log. solve_same_ticks. Qed.
Lemma call_on_reply_ticks c data rTime w : same_ticks w (snd (call_on_reply c data rTime w)).
Proof. unfold call_on_reply. solve_same_ticks. Qed.
Lemma call_on_failure_ticks c err w : same_ticks w (snd (call_on_failure c err w)).
Proof. unfold call_on_failure. solve_same_ticks. Qed.
Lemma proc_on_error_ticks proc err w : same_ticks w (snd (proc_on_error proc err w)).
Proof. unfold proc_on_error. solve_same_ticks. Qed.
Lemma proc_on_close_ticks proc code w : same_ticks w (snd (proc_on_close proc code w)).
Proof. unfold proc_on_close. solve_same_ticks. Qed.
Lemma proc_on_tick_ticks proc w : same_ticks w (snd (proc_on_tick proc w)).
Proof. unfold proc_on_tick. solve_same_ticks. Qed.
Lemma stream_on_error_ticks s err w : same_ticks w (snd (stream_on_error s err w)).
Proof. unfold stream_on_error. solve_same_ticks. Qed.


Lemma spawn_ticks opts launch w :
  let w' := snd (spawn rt opts launch w) in
  ticks w' = ticks w \/ ticks w' = ticks w ++ [fresh w].
Proof.
  unfold spawn, pipe_std. fold (spawn_opts opts).
  rewrite spawn_name_outcome.
  set (name := spawn_name rt opts). clearbody name.
  unfold_monad. simpl.
  repeat (case_match; simplify_eq/=; auto).
Qed.

Lemma step_keeps_tick w e proc :
  proc ∈ ticks w -> is_tick proc e = false -> proc ∈ ticks (step rt w e).
Proof.
  intros Hin He.
  assert (forall w', same_ticks w w' -> proc ∈ ticks w') as Hsame.
  { intros w' Hs. by rewrite Hs. }
  unfold step. destruct e; unfold handle; rewrite ?snd_ignore.
  - apply Hsame, connect_ticks.
  - apply Hsame, getInfo_ticks.
  - apply Hsame, getProcesses_ticks.
  - destruct (spawn_ticks opts launch w) as [->| ->]; [done|].
    apply elem_of_app. by left.
  - apply Hsame, kill_ticks.
  - apply Hsame, socket_on_connect_ticks.
  - apply Hsame, socket_on_error_ticks.
  - apply Hsame, socket_on_close_ticks.
  - apply Hsame, mux_on_error_ticks.
  - apply Hsame, _onPingInterval_ticks.
  - apply Hsame, call_on_reply_ticks.
  - apply Hsame, call_on_failure_ticks.
  - apply Hsame, proc_on_error_ticks.
  - apply Hsame, proc_on_close_ticks.
  - simpl in He. apply bool_decide_eq_false in He.
    unfold bind, get, modify. simpl. destruct (bool_decide _); simpl; [|done].
    pose proof (proc_on_tick_ticks proc0
      (set_ticks (fun ts => filter (fun p => p ≠ proc0) ts) w)) as Ht.
    unfold same_ticks in Ht. simpl in Ht.
    destruct (proc_on_tick proc0 _) as [[[]|?] w'] eqn:E; simpl in *;
      rewrite Ht; apply list_elem_of_filter; split; congruence.
  - apply Hsame, stream_on_error_ticks.
Qed.

Lemma run_keeps_tick es : forall w proc,
  proc ∈ ticks w -> no_tick proc es = true -> proc ∈ ticks (run rt w es).
Proof.
  induction es as [|e es IH]; intros w proc Hin Hn; [done|].
  simpl in Hn. apply andb_true_iff in Hn as [He Hn]. apply negb_true_iff in He.
  simpl. apply IH; [|done]. by apply step_keeps_tick.
Qed.

Lemma spawn_execution_returns (opts : Obj) (pid : Atom) (w : World) :
  truthy (prop opts "command") = true ->
  spawn_named opts = true ->
  opts !! "promise" = Some (AStr "execution") ->
  truthy (prop opts "stdout") = false ->
  truthy (prop opts "stderr") = false ->
  fst (spawn rt opts (Launched pid) w) = Return (OfChild (fresh w)) /\
  ticks (snd (spawn rt opts (Launched pid) w)) = ticks w ++ [fresh w].
Proof.
  intros Hc Hnamed Hp Ho He. unfold spawn, pipe_std. fold (spawn_opts opts).
  rewrite spawn_name_outcome, Hnamed.
  rewrite !(spawn_opts_other opts "command") by done.
  rewrite !(spawn_opts_other opts "stdout") by done.
  rewrite !(spawn_opts_other opts "stderr") by done.
  rewrite Hc, spawn_opts_promise, Hp, Ho, He. simpl.
  unfold_monad. simpl. done.
Qed.

(** X15. The created-notification.  After a [spawn] in execution mode
    that pipes no stream, one tick callback is queued.  When it runs --
    whatever happened in between, short of the close event -- it notifies
    the promise with the public view of the record if no error of the
    process has been observed, and only logs otherwise; the promise stays
    pending, and the callback does not run twice. *)
Theorem created_notification
    (opts0 : Obj) (pid0 : Z) (w : World)
    (opts : Obj) (pid : Atom) (es : list Event) :
  reachable rt opts0 pid0 w ->
  truthy (prop opts "command") = true ->
  spawn_named opts = true ->
  opts !! "promise" = Some (AStr "execution") ->
  truthy (prop opts "stdout") = false ->
  truthy (prop opts "stderr") = false ->
  no_close (fresh w) es = true ->
  no_tick (fresh w) es = true ->
  let proc := fresh w in
  let name := to_str (spawn_name rt opts) in
  let view := toPublicProcInfo (fields (spawn_procInfo rt opts pid proc)) in
  let w1 := step rt w (EvSpawn opts (Launched pid)) in
  let w2 := run rt w1 es in
  let w3 := step rt w2 (EvNextTick proc) in
  ticks w1 = ticks w ++ [proc] /\
  trace w3 = trace w2 ++
    match last_error proc es with
    | None => [Debug ("notify master of creation of " +:+ name); Notify (RObj view)]
    | Some err =>
        [Debug ("do NOT notify master of creation of " +:+ name +:+
                " because error happend during cration: " +:+ to_str (message err))]
    end /\
  deferred_of w3 proc = Some Pending /\
  (proc ∉ ticks w3) /\
  step rt w3 (EvNextTick proc) = w3.
Proof.
  intros Hr Hc Hnamed Hp Ho He Hn Hnt proc name view w1 w2 w3.
  pose proof (Inv_reachable _ _ _ Hr) as HI.
  destruct (spawn_execution_returns opts pid w Hc Hnamed Hp Ho He) as [_ Hticks].
  assert (prop (spawn_opts opts) "promise" = AStr "execution") as Hm
    by (by rewrite spawn_opts_promise, Hp).
  destruct (spawn_launched opts pid w Hc) as
    (c & Hps & Hcs & Hf & Hname & Hinfo & Hprom & _ & Herr & Hd & _).
  { rewrite Hm. by apply contains_modes; right. }
  { exact Hnamed. }
  rewrite Hm in Hd. change (c_deferred c = Pending) in Hd.
  assert (w1 = snd (spawn rt opts (Launched pid) w)) as Hw1.
  { unfold w1, step, handle. by rewrite snd_ignore. }
  rewrite <- Hw1 in Hps, Hcs, Hticks.
  assert (Inv pid0 w1) as HI1 by (by apply Inv_step).
  assert (children w1 !! proc = Some c) as Hc1.
  { rewrite Hcs. apply lookup_insert_eq. }
  assert (S proc ∈ registry w1) as Hin1.
  { unfold registry. rewrite Hps, fmap_app.
    apply elem_of_app. right. by apply list_elem_of_singleton. }
  destruct (run_keeps_child pid0 es w1 proc c HI1 Hc1 Herr Hn Hin1)
    as (Hc2 & _ & _).
  fold w2 in Hc2.
  assert (proc ∈ ticks w2) as Ht2.
  { apply run_keeps_tick; [|done]. rewrite Hticks.
    apply elem_of_app. right. by apply list_elem_of_singleton. }
  assert (proc ∉ filter (fun p => p ≠ proc) (ticks w2)) as Hnot.
  { intros [? _]%list_elem_of_filter. done. }
  split; [done|].
  unfold w3, step, handle, proc_on_tick. unfold_monad. simpl.
  rewrite (bool_decide_eq_true_2 _ Ht2). simpl. rewrite Hc2. simpl.
  rewrite Hd, Hname, Hinfo.
  destruct (last_error proc es) as [err|]; simpl;
    rewrite ?Hc2, (bool_decide_eq_false_2 _ Hnot); simpl;
    rewrite <- ?app_assoc; simpl; unfold deferred_of; simpl;
    rewrite ?Hc2; simpl; rewrite ?Hd; by split_and!.
Qed.

(** X16. Piping a stream.  A [spawn] in execution mode with a [stdout]
    label (and no [stderr] label), while a multiplexer exists, creates one
    sub-stream with that label on the multiplexer and pipes the standard
    output of the new process into it.  An error of that sub-stream unpipes
    and resumes that output and is logged; the promise of the [spawn] stays
    pending and the registry is unchanged. *)
Theorem spawn_pipes_stdout
    (opts : Obj) (pid : Atom) (w : World) (m : nat) (msg : string) :
  mux (this w) = Some m ->
  truthy (prop opts "command") = true ->
  spawn_named opts = true ->
  opts !! "promise" = Some (AStr "execution") ->
  truthy (prop opts "stdout") = true ->
  truthy (prop opts "stderr") = false ->
  let proc := fresh w in
  let stream := S (S (fresh w)) in
  let name := to_str (spawn_name rt opts) in
  let w1 := step rt w (EvSpawn opts (Launched pid)) in
  let w2 := step rt w1 (EvStreamError stream msg) in
  fst (spawn rt opts (Launched pid) w) = Return (OfChild proc) /\
  trace w1 = trace w ++
    [Debug ("starting " +:+ name +:+ " process");
     ChildSpawn (prop opts "command") (prop (spawn_opts opts) "args");
     RegistryPush (S proc);
     Debug ("piping stdout of " +:+ name +:+ " to " +:+ to_str (prop opts "stdout"));
     CreateStream m (prop opts "stdout") stream;
     Pipe proc "stdout" stream] /\
  trace w2 = trace w1 ++
    [Debug (name +:+ " stdout pipe error: " +:+ msg);
     Unpipe proc "stdout" stream;
     Resume proc "stdout"] /\
  deferred_of w2 proc = Some Pending /\
  processes (this w2) = processes (this w1).
Proof.
  intros Hm Hc Hnamed Hp Ho He proc stream name w1 w2.
  unfold w2, w1, step, handle, stream_on_error, deferred_of, name,
    spawn, pipe_std.
  subst proc stream.
  fold (spawn_opts opts).
  rewrite spawn_name_outcome, Hnamed.
  rewrite !(spawn_opts_other opts "command") by done.
  rewrite !(spawn_opts_other opts "stdout") by done.
  rewrite !(spawn_opts_other opts "stderr") by done.
  rewrite Hc, spawn_opts_promise, Hp, Ho, He. simpl.
  unfold_monad. simpl. rewrite Hm. simpl. rewrite !lookup_insert_eq. simpl.
  rewrite <- !app_assoc. simpl. split_and!; try reflexivity.
  by rewrite lookup_insert_eq.
Qed.


Lemma set_calls_id f w : f (calls w) = calls w -> set_calls f w = w.
Proof. intros H. destruct w; unfold set_calls; simpl in *. by rewrite H. Qed.

Lemma set_trace_nil w : set_trace (fun t => t ++ []) w = w.
Proof. destruct w; unfold set_trace; simpl. by rewrite app_nil_r. Qed.

Lemma call_on_reply_loop c data rTime time w :
  calls w !! c = Some (CallLoop time) ->
  call_on_reply c data rTime w =
    (Return tt, set_trace (fun t => t ++ reply_log data time rTime)
                  (set_calls (fun cs => delete c cs) w)).
Proof.
  intros H. unfold call_on_reply, reply_log. unfold_monad. cbv beta zeta.
  rewrite H. cbv beta iota zeta.
  generalize (pretty (rTime - time)). intros late.
  destruct (strict_eq (prop data "time") (ANum time));
    destruct (500 <? rTime - time); cbn [negb app];
    rewrite ?set_trace_app, ?set_trace_nil; reflexivity.
Qed.

Lemma call_on_reply_none c data rTime w :
  calls w !! c = None ->
  call_on_reply c data rTime w = (Return tt, set_calls (fun cs => delete c cs) w).
Proof. intros H. unfold call_on_reply. unfold_monad. cbn [fst snd]. by rewrite H. Qed.


(** X10. The heartbeat round trip.  The reply to a ['loop'] call logs an
    error when the echoed time is not the time sent, and a warning when
    more than 500 ms have passed (exactly 500 ms is not late); it changes
    nothing else, and a second reply to the same call is ignored. *)
Theorem heartbeat_round_trip (w : World) (r : nat) (time rTime : Z) (data : Obj) :
  rpc (this w) = Some r ->
  let call := fresh w in
  let w1 := step rt w (EvPingInterval time) in
  let w2 := step rt w1 (EvCallReply call data rTime) in
  trace w2 = trace w1 ++
    (if strict_eq (prop data "time") (ANum time) then []
     else [Debug "ERROR: loop time does not match"]) ++
    (if 500 <? rTime - time
     then [Debug ("got loop response with high latency " +:+ pretty (rTime - time) +:+ "ms")]
     else []) /\
  this w2 = this w /\
  calls w2 !! call = None /\
  step rt w2 (EvCallReply call data rTime) = w2.
Proof.
  intros Hr call w1 w2.
  assert (w1 = set_calls (fun cs => <[call := CallLoop time]> cs)
                 (set_trace (fun t => t ++ [RpcCall r "loop" {[ "time" := ANum time ]} call])
                    (set_fresh S w))) as Hw1.
  { unfold w1, step, handle. by apply ping_with_rpc. }
  assert (calls w1 !! call = Some (CallLoop time)) as Hc1.
  { rewrite Hw1. apply lookup_insert_eq. }
  assert (w2 = set_trace (fun t => t ++ reply_log data time rTime)
                 (set_calls (fun cs => delete call cs) w1)) as Hw2.
  { unfold w2, step, handle. by rewrite (call_on_reply_loop _ _ _ _ _ Hc1). }
  assert (calls w2 !! call = None) as Hc2.
  { rewrite Hw2. apply lookup_delete_eq. }
  split_and!.
  - by rewrite Hw2.
  - by rewrite Hw2, Hw1.
  - done.
  - unfold step, handle. rewrite (call_on_reply_none _ _ _ _ Hc2).
    apply set_calls_id. by apply delete_id.
Qed.


(** ** When [spawn] throws *)




(** ** The command line *)

Section CommandLineFacts.

Variable parseInt : Atom -> Atom.
Variable package_version : string.
Variable usage_text : string.

Lemma server_opts_props (host port : Atom) :
  prop ({[ "serverHost" := host; "serverPort" := port ]} : Obj) "serverHost" = host /\
  prop ({[ "serverHost" := host; "serverPort" := port ]} : Obj) "serverPort" = port.
Proof. split; reflexivity. Qed.

(** X18. The script leaves an agent running exactly when neither
    [--version] nor [--help] is given, there are exactly two positional
    arguments, and [net.createConnection] accepts [parseInt] of the second
    as port and the first as host.  With [--version] it prints the version
    (which wins), with [--help] or another number of arguments the usage
    text, and exits with code 0.  When the port or the host is refused, the
    exception of [connect] ends the script.  The agent left running has
    opened one socket to that port and host and set the 30 s heartbeat
    timer; its registry holds only its own record.  [--quiet] silences the
    message printed when that connection is established or fails. *)
Theorem pm_node_starts_agent (argv : Argv) (pid : Z) (msg : string) :
  let outcome := pm_node rt parseInt package_version usage_text argv pid in
  ((exists w p, outcome = CliRunning w p) <->
   argv_version argv = false /\ argv_help argv = false /\
   exists host port,
     argv_positional argv = [host; port] /\
     createConnection_error rt (parseInt port) host = None) /\
  (argv_version argv = true -> outcome = CliExit [package_version] 0) /\
  (argv_version argv = false ->
   argv_help argv = true \/ length (argv_positional argv) ≠ 2%nat ->
   outcome = CliExit [usage_text] 0) /\
  (forall host port err,
     argv_version argv = false -> argv_help argv = false ->
     argv_positional argv = [host; port] ->
     createConnection_error rt (parseInt port) host = Some err ->
     outcome = CliUncaught err) /\
  (forall host port,
     argv_version argv = false -> argv_help argv = false ->
     argv_positional argv = [host; port] ->
     createConnection_error rt (parseInt port) host = None ->
     exists w,
       outcome = CliRunning w (OfSocket 2) /\
       trace w = [CreateConnection (parseInt port) host 2; SetInterval (ANum 30000) 3] /\
       processes (this w) = [self_record pid] /\
       (rawSocket (this w), mux (this w), rpc (this w)) = (Some 2%nat, None, None) /\
       (exists s, s_deferred <$> sockets (step rt w (EvSocketConnect 2)) !! 2%nat = Some s /\
                  pm_node_settled argv s =
                    if argv_quiet argv then [] else ["connected to server"]) /\
       (exists s, s_deferred <$> sockets (step rt w (EvSocketError 2 msg)) !! 2%nat = Some s /\
                  pm_node_settled argv s =
                    if argv_quiet argv then []
                    else ["failed to connected to server: " +:+ msg])).
Proof.
  intros outcome. unfold outcome, pm_node. split_and!.
  - destruct (argv_version argv); [split; [by intros (?&?&?)|by intros (?&_)]|].
    destruct (argv_help argv); simpl; [split; [by intros (?&?&?)|by intros (_&?&_)]|].
    destruct (argv_positional argv) as [|host [|port [|x l]]]; simpl;
      try (split; [by intros (?&?&?)|by intros (_&_&?&?&?&_)]).
    unfold PMNode_new.
    destruct (server_opts_props host (parseInt port)) as [-> ->].
    unfold connect. unfold_monad. simpl.
    destruct (createConnection_error rt (parseInt port) host) as [err|] eqn:E; simpl.
    + split; [by intros (?&?&?)|]. intros (_&_&h&q&[= <- <-]&He). congruence.
    + split; [|by eauto]. intros _. split_and!; try done. by exists host, port.
  - by intros ->.
  - intros -> [->|Hn]; [done|].
    destruct (argv_help argv); [done|]. simpl.
    by destruct (Nat.eqb_spec (length (argv_positional argv)) 2).
  - intros host port err -> -> -> He. simpl.
    unfold PMNode_new.
    destruct (server_opts_props host (parseInt port)) as [-> ->].
    unfold connect. unfold_monad. simpl. by rewrite He.
  - intros host port -> -> -> Hok. simpl.
    unfold PMNode_new.
    destruct (server_opts_props host (parseInt port)) as [-> ->].
    unfold connect. unfold_monad. simpl. rewrite Hok. simpl.
    eexists. split; [reflexivity|].
    unfold step, handle, socket_on_connect, socket_on_error, settle_connect,
      _onRawSocketConnection, pm_node_settled, qlog.
    unfold_monad. simpl.
    split_and!; try reflexivity; eexists; (split; [reflexivity|]);
      by destruct (argv_quiet argv).
Qed.

End CommandLineFacts.

End Properties.

(** * Examples *)

Lemma example_supervising_reachable :
  reachable example_runtime example_server 4711 example_supervising.
Proof. apply reachable_step, reachable_new. Qed.

Lemma example_connected_reachable :
  reachable example_runtime example_server 4711 example_connected.
Proof. apply reachable_step, reachable_step, reachable_new. Qed.

(** C1 at a concrete run: [/bin/true] exits with code 0. *)
Lemma spawn_execution_completion_witness :
  let w1 := step example_runtime example_agent
                 (EvSpawn example_execution (Launched (ANum 4712))) in
  let w3 := step example_runtime w1 (EvProcClose 2 (ANum 0)) in
  fst (spawn example_runtime example_execution (Launched (ANum 4712)) example_agent) =
    Return (OfChild 2) /\
  deferred_of w1 2 = Some Pending /\
  deferred_of w3 2 = Some (Fulfilled (RObj
    {[ "code" := ANum 0; "coreId" := AUndefined; "name" := AStr "true";
       "pid" := ANum 4712; "promise" := AStr "execution" ]})) /\
  3%nat ∉ registry w3.
Proof.
  pose proof (spawn_execution_completion example_runtime example_server 4711 example_agent
                example_execution (ANum 4712) [] (ANum 0)
                (reachable_new _ _ _) eq_refl eq_refl eq_refl
                (fun _ => conj eq_refl eq_refl) eq_refl) as H.
  cbv zeta in H. destruct H as (H0 & H1 & H2 & _ & H3).
  split_and!.
  - exact H0.
  - exact H1.
  - eapply eq_trans; [exact H2|]. vm_compute. reflexivity.
  - exact (H3 []).
Defined.

(** C1 as stated fails: a [spawn] in execution mode that asks for the
    standard output while there is no multiplexer hands back no promise:
    there is no operation that could stay pending or settle. *)
Lemma spawn_execution_no_promise :
  let opts := <["stdout" := AStr "out-1"]> example_execution in
  ~ exists p, fst (spawn example_runtime opts (Launched (ANum 4713)) example_agent) = Return p.
Proof. intros opts [p H]. vm_compute in H. discriminate H. Qed.


(** C2 at a concrete input: [missing-binary] on the connected agent.  The
    process object comes back without a pid, then reports [ENOENT] and
    closes with the code -2. *)
Lemma spawn_launch_failure_witness :
  let opts : Obj := {[ "command" := AStr "missing-binary" ]} in
  let w1 := step example_runtime example_connected (EvSpawn opts (Launched AUndefined)) in
  let w3 := run example_runtime w1
              [EvProcError 6 "spawn missing-binary ENOENT"; EvProcClose 6 (ANum (-2))] in
  deferred_of w1 6 = Some (Fulfilled (RObj
    {[ "coreId" := AUndefined; "name" := AStr "missing-binary";
       "pid" := AUndefined; "promise" := AStr "creation" ]})) /\
  (7%nat ∈ registry w1) /\
  (RpcCall 5 "onProcessEnd"
     {[ "code" := ANum (-2); "coreId" := AUndefined;
        "error" := AError "spawn missing-binary ENOENT";
        "name" := AStr "missing-binary";
        "pid" := AUndefined; "promise" := AStr "creation" ]} 8 ∈ trace w3) /\
  fst (spawn example_runtime opts (LaunchThrows (AError "spawn EAGAIN")) example_connected) =
    Return (Settled (Fulfilled (RAtom (AError "spawn EAGAIN")))).
Proof.
  intros opts w1 w3.
  pose proof (spawn_launch_failure example_runtime example_server 4711 example_connected
                opts AUndefined "spawn missing-binary ENOENT" (ANum (-2))
                (AError "spawn EAGAIN")
                example_connected_reachable eq_refl eq_refl eq_refl) as H.
  cbv zeta in H. destruct H as ((_ & H1 & _ & H3 & _ & H5 & _) & H7).
  split_and!.
  - eapply eq_trans; [exact H1|]. vm_compute. reflexivity.
  - exact H3.
  - exact (H5 5%nat eq_refl).
  - exact (f_equal fst H7).
Defined.

(** C3 at a concrete state: a second [connect] while the first socket is
    still connecting. *)
Lemma connect_while_connected_witness :
  let w := step example_runtime example_agent (EvConnect ∅) in
  rawSocket (this w) = Some 2%nat /\
  connect example_runtime ∅ w =
    (Return (Settled (Fulfilled (RAtom (AError "client is conencted")))), w).
Proof.
  intros w. split; [reflexivity|].
  apply (connect_while_connected example_runtime ∅ w). right. vm_compute. eexists. reflexivity.
Defined.

(** C4 at a concrete input: no command. *)
Lemma spawn_usage_error_witness :
  exists msg log,
    spawn example_runtime ∅ (Launched (ANum 4712)) example_agent =
      (Return (Settled (Fulfilled (RAtom (AError msg)))),
       set_trace (fun t => t ++ [Debug log]) example_agent).
Proof.
  apply (spawn_usage_error example_runtime ∅ (Launched (ANum 4712)) example_agent).
  left. reflexivity.
Defined.

(** C5 at the failing input: the child is launched while the agent is not
    connected; then the agent connects, so that a session exists when the
    close event is handled.  The record is removed, and the master is not
    notified: the listener logs that it cannot send. *)
Lemma close_removes_then_notifies_witness :
  let es := [EvConnect ∅; EvSocketConnect 4] in
  let w2 := run example_runtime example_supervising es in
  let w3 := step example_runtime w2 (EvProcClose 2 (ANum 0)) in
  (rawSocket (this w2), mux (this w2), rpc (this w2)) =
    (Some 4%nat, Some 6%nat, Some 7%nat) /\
  registry w2 = [1%nat; 3%nat] /\
  (3%nat ∉ registry w3) /\
  (exists rest,
     trace w3 = trace w2 ++
       Debug "sleep process close" :: RegistrySplice 3 ::
       Debug "can not send process end msg to master, disconnected?" :: rest) /\
  forallb (fun e => negb (is_RpcCall e)) (trace w3) = true.
Proof.
  intros es w2 w3.
  pose proof (close_removes_then_notifies example_runtime example_server 4711 example_agent
                example_creation (ANum 4712) es (ANum 0)
                (reachable_new _ _ _) eq_refl eq_refl eq_refl eq_refl) as H.
  cbv zeta in H. destruct H as (_ & H2 & (rest & H3 & _) & _).
  split_and!; try reflexivity.
  - exact H2.
  - exists rest. exact H3.
Defined.

(** The same listener after a reconnect: the agent is connected when it
    launches the child, loses the session and opens a new one; the close
    listener then calls [onProcessEnd] on the channel of the lost session,
    not on the channel of the session that exists. *)
Lemma close_after_reconnect_calls_old_channel :
  let w2 := run example_runtime example_connected
              [EvSpawn example_creation (Launched (ANum 4712));
               EvSocketClose 2; EvPingInterval 1000; EvSocketConnect 8] in
  let w3 := step example_runtime w2 (EvProcClose 6 (ANum 0)) in
  rpc (this example_connected) = Some 5%nat /\
  rpc (this w2) = Some 10%nat /\
  List.filter is_RpcCall (trace w3) =
    [RpcCall 5 "onProcessEnd"
       {[ "code" := ANum 0; "coreId" := AUndefined; "name" := AStr "sleep";
          "pid" := ANum 4712; "promise" := AStr "creation" ]} 11].
Proof. vm_compute. repeat split. Qed.

(** C6 at a concrete state: the agent supervising one child. *)
Lemma one_protected_record_witness :
  List.filter protected (processes (this example_supervising)) = [self_record 4711] /\
  head (processes (this example_supervising)) = Some (self_record 4711).
Proof.
  apply (one_protected_record example_runtime example_server 4711 example_supervising).
  apply reachable_step, reachable_new.
Defined.

(** C7 at a concrete input: [SIGKILL] for the agent itself. *)
Lemma kill_protected_witness :
  let kopts : Obj := {[ "pid" := ANum 4711; "signal" := AStr "SIGKILL" ]} in
  kill example_runtime kopts example_supervising =
    (Return (Settled (Rejected (AError "process is protected"))),
     set_trace (fun t => t ++ [Debug "illigal kill call: process is protected";
                               Settle (Rejected (AError "process is protected"))])
       example_supervising).
Proof.
  intros kopts.
  apply (kill_protected example_runtime example_server 4711 example_supervising kopts).
  - apply reachable_step, reachable_new.
  - lia.
  - reflexivity.
Defined.

(** C8 at a concrete input: the child 4712 is sent the default signal. *)
Lemma kill_delivers_signal_witness :
  let r := spawn_procInfo example_runtime example_creation (ANum 4712) 2 in
  exists view w',
    kill example_runtime {[ "pid" := ANum 4712 ]} example_supervising =
      (Return (Settled (Fulfilled (RObj view))), w') /\
    (view !! "_proc" = None /\ forall k, k ≠ "_proc" -> view !! k = fields r !! k) /\
    w' = set_trace (fun t => t ++
           [ProcKill (prop (fields r) "_proc")
                     (default (AStr "SIGTERM")
                        (({[ "pid" := ANum 4712 ]} : Obj) !! "signal"));
            Settle (Fulfilled (RObj view))])
           example_supervising /\
    processes (this w') = processes (this example_supervising).
Proof.
  intros r.
  apply (kill_delivers_signal example_runtime {[ "pid" := ANum 4712 ]} r example_supervising).
  - reflexivity.
  - vm_compute. reflexivity.
  - reflexivity.
  - reflexivity.
  - reflexivity.
Defined.

(** C8 as stated fails: the record found for the pid 4712 is not protected
    and holds its handle, but the process object does not know the signal
    ['SIGFOO']: its exception escapes [kill], no promise is handed back and
    nothing is delivered. *)
Lemma kill_unknown_signal_throws :
  let kopts : Obj := {[ "pid" := ANum 4712; "signal" := AStr "SIGFOO" ]} in
  let r := spawn_procInfo example_runtime example_creation (ANum 4712) 2 in
  findWhere (processes (this example_supervising)) "pid" (prop kopts "pid") = Some r /\
  protected r = false /\
  truthy (prop (fields r) "_proc") = true /\
  kill example_runtime kopts example_supervising =
    (Throw (AError "TypeError: Unknown signal: SIGFOO"), example_supervising).
Proof. vm_compute. repeat split. Qed.

(** C9 at a concrete state: the outputs so far, and what [getProcesses]
    answers, for the agent supervising one child. *)
Lemma public_views_omit_handle_witness :
  let lookup := fun _ : Atom => UsageOk {[ "cpu" := ANum 3; "memory" := ANum 4096 ]} in
  (forall e o, e ∈ trace example_supervising -> o ∈ effect_objects e ->
               o !! "_proc" = None) /\
  exists views,
    fst (getProcesses lookup example_supervising) =
      Return (Settled (Fulfilled (RObjs views))) /\
    length views = 2%nat /\
    Forall (fun o => o !! "_proc" = None) views.
Proof.
  intros lookup.
  destruct (public_views_omit_handle example_runtime example_server 4711 example_supervising
              example_supervising_reachable) as (H1 & H2 & _).
  split; [exact H1|].
  eexists. split; [vm_compute; reflexivity|]. split; [reflexivity|].
  apply (H2 lookup).
  - intros a result [= <-]. reflexivity.
  - vm_compute. reflexivity.
Defined.

(** C10 at a concrete input: [stdout] is to be piped, but there is no
    session. *)
Lemma spawn_execution_without_mux_witness :
  let opts := <["stdout" := AStr "out-1"]> example_execution in
  exists w',
    spawn example_runtime opts (Launched (ANum 4713)) example_agent =
      (Throw TypeError, w') /\
    processes (this w') =
      processes (this example_agent) ++
      [spawn_procInfo example_runtime opts (ANum 4713) (fresh example_agent)].
Proof.
  intros opts.
  apply (spawn_execution_without_mux example_runtime opts (ANum 4713) example_agent).
  - reflexivity.
  - reflexivity.
  - reflexivity.
  - reflexivity.
  - left. reflexivity.
Defined.

(** * Further examples *)

(** X1 at a concrete input: the view of a record without [_proc] is the
    record. *)
Lemma toPublicProcInfo_idempotent_witness :
  truthy (prop ({[ "pid" := ANum 7 ]} : Obj) "_proc") = false /\
  toPublicProcInfo ({[ "pid" := ANum 7 ]} : Obj) = {[ "pid" := ANum 7 ]}.
Proof.
  split; [reflexivity|].
  apply (proj2 (proj2 (toPublicProcInfo_idempotent {[ "pid" := ANum 7 ]}))).
  reflexivity.
Defined.

(** X3 at concrete inputs: no pid, and a pid nobody has. *)
Lemma kill_unknown_pid_witness :
  fst (kill example_runtime ∅ example_supervising) =
    Return (Settled (Rejected (AError "pid is required"))) /\
  fst (kill example_runtime {[ "pid" := ANum 9999 ]} example_supervising) =
    Return (Settled (Rejected (AError "pid not found"))).
Proof.
  split.
  - rewrite (proj1 (kill_unknown_pid example_runtime ∅ example_supervising)); reflexivity.
  - rewrite (proj2 (kill_unknown_pid example_runtime {[ "pid" := ANum 9999 ]} example_supervising));
      [reflexivity | reflexivity |].
    repeat constructor.
Defined.

(** X4 at concrete inputs: both lookups succeed, or the second fails. *)
Lemma getProcesses_all_or_nothing_witness :
  (exists views,
     fst (getProcesses example_lookup example_supervising) =
       Return (Settled (Fulfilled (RObjs views))) /\ length views = 2%nat) /\
  (exists err, fst (getProcesses example_lookup_failing example_supervising) =
                 Return (Settled (Rejected err))).
Proof.
  split.
  - eexists. split.
    + apply (proj1 (proj2 (getProcesses_all_or_nothing example_lookup example_supervising))
               [{[ "cpu" := ANum 3; "memory" := ANum 4096 ]};
                {[ "cpu" := ANum 3; "memory" := ANum 4096 ]}]).
      repeat constructor.
    + reflexivity.
  - destruct (proj2 (proj2 (getProcesses_all_or_nothing example_lookup_failing
                              example_supervising))
                (spawn_procInfo example_runtime example_creation (ANum 4712) 2)
                (AError "no such process")) as (r' & err' & _ & _ & H).
    + vm_compute. apply list_elem_of_further, list_elem_of_here.
    + reflexivity.
    + by exists err'.
Defined.

(** X5 at a concrete state: the connected agent. *)
Lemma session_always_consistent_witness :
  session_consistent (this example_connected) /\
  rpc (this example_connected) = Some 5%nat.
Proof.
  split; [|reflexivity].
  apply (session_always_consistent example_runtime example_server 4711 example_connected).
  apply example_connected_reachable.
Defined.

(** X6 at a concrete state: connected, disconnected, reconnected. *)
Lemma heartbeat_timer_once_witness :
  let w := run example_runtime example_connected
             [EvSocketClose 2; EvPingInterval 1000; EvSocketConnect 6] in
  timers (trace w) = 1%nat /\
  List.length (List.filter is_CreateConnection (trace w)) = 2%nat.
Proof.
  intros w. split; [|reflexivity].
  assert (reachable example_runtime example_server 4711 w) as Hr.
  { do 3 apply reachable_step. apply example_connected_reachable. }
  apply (heartbeat_timer_once example_runtime example_server 4711 w) in Hr as [H _].
  exact H.
Defined.


(** X8 at concrete states: the first connect of a fresh agent, and of an
    agent that was given the port 70000. *)
Lemma connect_establishes_session_witness :
  let w1 := snd (connect example_runtime ∅ example_agent) in
  let bad := PMNode_new {[ "serverHost" := AStr "master.example";
                           "serverPort" := ANum 70000 ]} 4711 in
  fst (connect example_runtime ∅ example_agent) = Return (OfSocket 2) /\
  (rawSocket (this w1), mux (this w1), rpc (this w1)) = (Some 2%nat, None, None) /\
  s_deferred <$> sockets (step example_runtime w1 (EvSocketConnect 2)) !! 2%nat =
    Some (Fulfilled (RAtom AUndefined)) /\
  s_deferred <$> sockets (step example_runtime w1 (EvSocketError 2 "ECONNREFUSED")) !! 2%nat =
    Some (Rejected (AError "ECONNREFUSED")) /\
  connect example_runtime ∅ bad =
    (Throw (AError "RangeError: port should be >= 0 and < 65536"), bad).
Proof.
  intros w1 bad.
  destruct (connect_establishes_session example_runtime example_server 4711 example_agent ∅
              "ECONNREFUSED" (reachable_new _ _ _) eq_refl eq_refl) as [_ H].
  specialize (H eq_refl).
  cbv zeta in H. destruct H as (H1 & _ & H3 & _ & _ & H6 & _ & H8).
  split_and!; [exact H1 | exact H3 | exact H6 | exact H8 |].
  apply (connect_establishes_session example_runtime
           {[ "serverHost" := AStr "master.example"; "serverPort" := ANum 70000 ]}
           4711 bad ∅ "ECONNREFUSED" (reachable_new _ _ _) eq_refl eq_refl).
  reflexivity.
Defined.

(** X9 at concrete states: connected, idle, and connecting. *)
Lemma ping_interval_cases_witness :
  (exists c, trace (snd (_onPingInterval example_runtime 1000 example_connected)) =
               trace example_connected ++
               [RpcCall 5 "loop" {[ "time" := ANum 1000 ]} c]) /\
  rawSocket (this (snd (_onPingInterval example_runtime 1000 example_agent))) = Some 2%nat /\
  (let w := snd (connect example_runtime ∅ example_agent) in
   snd (_onPingInterval example_runtime 1000 w) =
     set_trace (fun t => t ++ [Debug "ping interval has no rpc ... reconnecting now";
                               Debug "reconnect successful"]) w).
Proof.
  split_and!.
  - exists 6%nat.
    rewrite (proj1 (ping_interval_cases example_runtime 1000 example_connected) 5%nat eq_refl).
    vm_compute. reflexivity.
  - destruct (proj1 (proj2 (ping_interval_cases example_runtime 1000 example_agent))
                eq_refl eq_refl eq_refl)
      as (_ & H & _). exact H.
  - intros w.
    exact (proj2 (proj2 (proj2 (ping_interval_cases example_runtime 1000 w)))
             2%nat eq_refl eq_refl).
Defined.

(** X10 at concrete inputs: a reply after exactly 500 ms, and a late one
    that echoes another time. *)
Lemma heartbeat_round_trip_witness :
  let w1 := step example_runtime example_connected (EvPingInterval 1000) in
  trace (step example_runtime w1 (EvCallReply 6 {[ "time" := ANum 1000 ]} 1500)) =
    trace w1 /\
  trace (step example_runtime w1 (EvCallReply 6 {[ "time" := ANum 999 ]} 1501)) =
    trace w1 ++ [Debug "ERROR: loop time does not match";
                 Debug "got loop response with high latency 501ms"].
Proof.
  intros w1. split.
  - destruct (heartbeat_round_trip example_runtime example_connected 5 1000 1500
                {[ "time" := ANum 1000 ]} eq_refl) as (H & _).
    eapply eq_trans; [exact H|]. apply app_nil_r.
  - destruct (heartbeat_round_trip example_runtime example_connected 5 1000 1501
                {[ "time" := ANum 999 ]} eq_refl) as (H & _).
    eapply eq_trans; [exact H|]. f_equal.
Defined.

(** X11 at a concrete state: the socket of the connected agent closes. *)
Lemma teardown_clears_session_witness :
  let w' := step example_runtime example_connected (EvSocketClose 2) in
  (rawSocket (this w'), mux (this w'), rpc (this w')) = (None, None, None) /\
  step example_runtime w' (EvSocketClose 2) = w'.
Proof.
  intros w'.
  destruct (proj1 (teardown_clears_session example_runtime example_connected) 2%nat
              {| s_deferred := Fulfilled (RAtom AUndefined); s_connect := false;
                 s_error := true; s_close := true; s_reconnect := false |}
              eq_refl eq_refl) as (H1 & _ & _ & H4).
  split; [|exact H4]. fold w' in H1. by rewrite H1.
Defined.

(** X12 at a concrete state: the agent supervising one child. *)
Lemma registry_records_owned_witness :
  NoDup (registry example_supervising) /\
  registry example_supervising = [1%nat; 3%nat].
Proof.
  split; [|reflexivity].
  apply (registry_records_owned example_runtime example_server 4711 example_supervising).
  apply example_supervising_reachable.
Defined.

(** X13 at a concrete run: [/bin/sleep] fails after its creation was
    promised. *)
Lemma spawn_creation_fulfilled_witness :
  let view : Obj :=
    {[ "coreId" := AUndefined; "name" := AStr "sleep"; "pid" := ANum 4712;
       "promise" := AStr "creation" ]} in
  let w3 := step example_runtime
              (run example_runtime example_supervising [EvProcError 2 "boom"])
              (EvProcClose 2 (ANum 1)) in
  deferred_of example_supervising 2 = Some (Fulfilled (RObj view)) /\
  deferred_of w3 2 = Some (Fulfilled (RObj view)).
Proof.
  intros view w3.
  pose proof (spawn_creation_fulfilled example_runtime example_server 4711 example_agent
                example_creation (ANum 4712) [EvProcError 2 "boom"] (ANum 1)
                (reachable_new _ _ _) eq_refl eq_refl eq_refl eq_refl) as H.
  cbv zeta in H. destruct H as (_ & H1 & _ & _ & _ & _ & H2).
  split; (eapply eq_trans; [eassumption|]); vm_compute; reflexivity.
Defined.

(** X14 at a concrete run: the child 4712 is signalled, exits, and is
    unknown afterwards. *)
Lemma spawn_then_kill_witness :
  let kopts : Obj := {[ "pid" := ANum 4712 ]} in
  let w3 := step example_runtime example_supervising (EvProcClose 2 ANull) in
  (exists o, fst (kill example_runtime kopts example_supervising) = Return (Settled (Fulfilled (RObj o)))) /\
  fst (kill example_runtime kopts w3) = Return (Settled (Rejected (AError "pid not found"))).
Proof.
  intros kopts w3.
  assert (pid_free (ANum 4712) (processes (this example_agent))) as Hfree.
  { repeat constructor. }
  pose proof (spawn_then_kill example_runtime example_server 4711 example_agent
                example_creation 4712 kopts ANull
                (reachable_new _ _ _) eq_refl eq_refl eq_refl) as H.
  cbv zeta in H. destruct H as (H1 & H2); [lia | exact Hfree | reflexivity |].
  split.
  - eexists. exact (f_equal fst (H1 eq_refl)).
  - exact (f_equal fst H2).
Defined.

(** X15 at a concrete run: [/bin/true] is launched in execution mode and
    the tick runs before anything else happens. *)
Lemma created_notification_witness :
  let w1 := step example_runtime example_agent
              (EvSpawn example_execution (Launched (ANum 4712))) in
  ticks w1 = [2%nat] /\
  trace (step example_runtime w1 (EvNextTick 2)) =
    trace w1 ++
    [Debug "notify master of creation of true";
     Notify (RObj {[ "coreId" := AUndefined; "name" := AStr "true";
                     "pid" := ANum 4712; "promise" := AStr "execution" ]})].
Proof.
  intros w1.
  pose proof (created_notification example_runtime example_server 4711 example_agent
                example_execution (ANum 4712) []
                (reachable_new _ _ _) eq_refl eq_refl eq_refl eq_refl eq_refl eq_refl
                eq_refl) as H.
  cbv zeta in H. destruct H as (H1 & H2 & _).
  split; [exact H1|].
  eapply eq_trans; [exact H2|]. vm_compute. reflexivity.
Defined.

(** X16 at a concrete run: the connected agent pipes the output of
    [/bin/true] into the sub-stream [out-1]. *)
Lemma spawn_pipes_stdout_witness :
  let opts := <["stdout" := AStr "out-1"]> example_execution in
  let w1 := step example_runtime example_connected
              (EvSpawn opts (Launched (ANum 4712))) in
  let w2 := step example_runtime w1 (EvStreamError 8 "EPIPE") in
  fst (spawn example_runtime opts (Launched (ANum 4712)) example_connected) =
    Return (OfChild 6) /\
  trace w2 = trace w1 ++
    [Debug "true stdout pipe error: EPIPE"; Unpipe 6 "stdout" 8; Resume 6 "stdout"] /\
  deferred_of w2 6 = Some Pending.
Proof.
  intros opts w1 w2.
  pose proof (spawn_pipes_stdout example_runtime opts (ANum 4712) example_connected
                4 "EPIPE" eq_refl eq_refl eq_refl eq_refl eq_refl eq_refl) as H.
  cbv zeta in H. destruct H as (H1 & _ & H3 & H4 & _).
  split_and!; [exact H1 | | exact H4].
  eapply eq_trans; [exact H3|]. f_equal.
Defined.


(** X18 at concrete inputs: [pm-node master.example 7000], and the same
    with a host that [net.createConnection] is not asked to check and a
    port it refuses. *)
Lemma pm_node_starts_agent_witness :
  (exists w,
     pm_node example_runtime example_parseInt "1.0.0" "usage" example_argv 4711 =
       CliRunning w (OfSocket 2) /\
     trace w = [CreateConnection (ANum 7000) (AStr "master.example") 2;
                SetInterval (ANum 30000) 3]) /\
  pm_node example_runtime example_parseInt "1.0.0" "usage"
    {| argv_help := false; argv_quiet := false; argv_version := false;
       argv_verbose := false;
       argv_positional := [AStr "master.example"; ANum 70000] |} 4711 =
    CliUncaught (AError "RangeError: port should be >= 0 and < 65536").
Proof.
  split.
  - destruct (pm_node_starts_agent example_runtime example_parseInt "1.0.0" "usage"
                example_argv 4711 "ECONNREFUSED") as (_ & _ & _ & _ & H).
    destruct (H (AStr "master.example") (ANum 7000) eq_refl eq_refl eq_refl eq_refl)
      as (w & H1 & H2 & _).
    exists w. split; [exact H1 | exact H2].
  - destruct (pm_node_starts_agent example_runtime example_parseInt "1.0.0" "usage"
                {| argv_help := false; argv_quiet := false; argv_version := false;
                   argv_verbose := false;
                   argv_positional := [AStr "master.example"; ANum 70000] |}
                4711 "ECONNREFUSED") as (_ & _ & _ & H & _).
    exact (H (AStr "master.example") (ANum 70000) _ eq_refl eq_refl eq_refl eq_refl).
Defined.
